(** * Recursive least squares for the resistor model V = R I + b

    A shallow embedding of the notebook
    [Module 1 - Least Squares/Recursive Least Squares.ipynb]:
    the batch solution of cell 4 and the recursive estimator of cell 7.

    The notebook is given two semantics.

    In the first, NumPy's float64 arrays are modelled by lists of rationals
    in lowest terms ([Qc]): every arithmetic operation is the exact one, so
    the results stated over it are the exact-arithmetic semantics of the
    notebook, and two numbers are equal exactly when they have the same
    value.  A decimal literal such as [0.2] denotes the rational [2/10].
    The shapes, the order of the statements, the exceptions and the history
    writes do not depend on the arithmetic.

    In the second, the module [Binary64], the numbers of cell 7 are IEEE 754
    binary64 floats and every operation rounds as float64 does.  It decides
    what rounding, overflow and NaN do to the properties stated in exact
    arithmetic. *)

From Stdlib Require Import Arith QArith Qabs Qcanon Qfield Lqa Lia List Permutation.
From Stdlib Require Import Floats.
Import ListNotations.
Open Scope Q_scope.
Open Scope Qc_scope.

(** ** The fragment of NumPy used by the notebook *)

Module Np.

(** A 1-D array and a 2-D array (row major). *)
Definition vector := list Qc.
Definition matrix := list (list Qc).

(** The array bound to [I] is 2-D when loaded and 1-D after the
    reshape inside the loop. *)
Inductive ndarray :=
| Arr1 (v : vector)
| Arr2 (m : matrix).

(** The exceptions the notebook's operations can raise.  [Unsupported]
    marks a shape of [inv] this model does not cover. *)
Inductive exn := LinAlgError | IndexError | ValueError | Unsupported.

Inductive result (A : Type) :=
| Ok (a : A)
| Raise (e : exn).
Arguments Ok {A} a.
Arguments Raise {A} e.

Definition rbind {A B} (r : result A) (k : A -> result B) : result B :=
  match r with
  | Ok a => k a
  | Raise e => Raise e
  end.

Fixpoint zip_with {A B C} (f : A -> B -> C) (l : list A) (l' : list B) : list C :=
  match l, l' with
  | a :: t, b :: t' => f a b :: zip_with f t t'
  | _, _ => []
  end.

(** [a.shape[0]] *)
Definition shape0 (a : ndarray) : nat :=
  match a with
  | Arr1 v => length v
  | Arr2 m => length m
  end.

(** [a.ravel()]: the elements in row-major order. *)
Definition ravel (a : ndarray) : vector :=
  match a with
  | Arr1 v => v
  | Arr2 m => concat m
  end.

(** [a.reshape(n)]: the same elements under the shape [(n,)];
    [ValueError] when the array does not hold [n] elements. *)
Definition reshape1 (n : nat) (a : ndarray) : result vector :=
  if Nat.eqb (length (ravel a)) n then Ok (ravel a) else Raise ValueError.

Fixpoint chunks (r c : nat) (l : vector) : matrix :=
  match r with
  | O => []
  | S r' => firstn c l :: chunks r' c (skipn c l)
  end.

(** [a.reshape(r, c)] *)
Definition reshape2 (r c : nat) (a : ndarray) : result matrix :=
  if Nat.eqb (length (ravel a)) (r * c) then Ok (chunks r c (ravel a))
  else Raise ValueError.

(** [a[k]] on the first axis; [IndexError] out of range. *)
Definition getitem {A} (l : list A) (k : nat) : result A :=
  match nth_error l k with
  | Some a => Ok a
  | None => Raise IndexError
  end.

Fixpoint set_nth {A} (l : list A) (k : nat) (a : A) : list A :=
  match l, k with
  | [], _ => []
  | _ :: t, O => a :: t
  | h :: t, S k' => h :: set_nth t k' a
  end.

(** [a[k] = v] on the first axis; [IndexError] out of range. *)
Definition setitem {A} (l : list A) (k : nat) (a : A) : result (list A) :=
  if Nat.ltb k (length l) then Ok (set_nth l k a) else Raise IndexError.

(** [np.zeros((n, c))] and [np.zeros((n, r, c))] *)
Definition zeros1 (c : nat) : vector := repeat 0 c.
Definition zeros2 (r c : nat) : matrix := repeat (zeros1 c) r.
Definition zeros3 (n r c : nat) : list matrix := repeat (zeros2 r c) n.

(** [np.eye(n)] *)
Fixpoint eye (n : nat) : matrix :=
  match n with
  | O => []
  | S n' => (1 :: zeros1 n') :: map (cons 0) (eye n')
  end.

(** [m.T] *)
Fixpoint transpose (m : matrix) : matrix :=
  match m with
  | [] => []
  | r :: rest =>
      match rest with
      | [] => map (fun x => [x]) r
      | _ :: _ => zip_with cons r (transpose rest)
      end
  end.

Definition dot (u v : vector) : Qc :=
  fold_left Qcplus (zip_with Qcmult u v) 0.

(** [A @ B] (also [A.dot(B)]) for conforming 2-D arrays. *)
Definition matmul (A B : matrix) : matrix :=
  map (fun row => map (dot row) (transpose B)) A.

(** [A + B] and [A - B] for 2-D arrays of the same shape. *)
Definition madd (A B : matrix) : matrix := zip_with (zip_with Qcplus) A B.
Definition msub (A B : matrix) : matrix := zip_with (zip_with Qcminus) A B.

(** [v - B] where [v] is 1-D and [B] 2-D: [v] is broadcast over the
    rows of [B].  The notebook subtracts the 1x1 array [H_k @ x_k] from the
    one-element [V[k]]; the broadcast of a longer [v] against a shorter row
    is not modelled. *)
Definition bsub (v : vector) (B : matrix) : matrix :=
  map (zip_with Qcminus v) B.

(** [np.linalg.inv]: the inverse of a square matrix, [LinAlgError] on a
    singular or a non-square one.  The notebook inverts a 1x1 and a 2x2
    matrix; the inverse is written out for these two shapes.  This is the
    inverse in exact arithmetic: singular means that the number, or the
    determinant, is zero, and the entries of the inverse are the exact
    quotients.  [Binary64.inv] is the 1x1 inverse over floats. *)
Definition inv (m : matrix) : result matrix :=
  match m with
  | [[s]] =>
      if Qeq_bool s 0 then Raise LinAlgError else Ok [[/ s]]
  | [[a; b]; [c; d]] =>
      let det := a * d - b * c in
      if Qeq_bool det 0 then Raise LinAlgError
      else Ok [[d / det; - b / det]; [- c / det; a / det]]
  | _ =>
      if forallb (fun row => Nat.eqb (length row) (length m)) m
      then Raise Unsupported else Raise LinAlgError
  end.

(** Entry [m[i, j]]; used in statements only. *)
Definition entry (m : matrix) (i j : nat) : Qc := nth j (nth i m []) 0.

End Np.
Import Np.

Declare Scope np_scope.
Delimit Scope np_scope with np.
Notation "A *m B" := (matmul A B) (at level 40, left associativity) : np_scope.
Notation "A +m B" := (madd A B) (at level 50, left associativity) : np_scope.
Notation "A -m B" := (msub A B) (at level 50, left associativity) : np_scope.
Notation "A ^T" := (transpose A) (at level 1, format "A ^T") : np_scope.
Notation "x <- r ;; k" := (rbind r (fun x => k))
  (at level 61, r at next level, right associativity) : np_scope.
Open Scope np_scope.

(** ** Cell 1: the data *)

(** The literals of a row, read as rationals. *)
Definition lit (l : list Q) : vector := map Q2Qc l.

Definition I_data : ndarray := Arr2 [lit [0.2; 0.3; 0.4; 0.5; 0.6]]^T.
Definition V_data : matrix := [lit [1.23; 1.38; 2.06; 2.47; 3.17]]^T.

(** ** Cell 4: the batch solution *)

(** [H = np.ones((5, 2)); H[:, 0] = I.ravel()], for the five currents that
    [H] has rows for. *)
Definition batch_H (I : ndarray) : matrix := map (fun i => [i; 1]) (ravel I).

(** [x_ls = inv(H.T.dot(H)).dot(H.T.dot(V))] *)
Definition x_ls (I : ndarray) (V : matrix) : result matrix :=
  let H := batch_H I in
  G <- inv (H^T *m H) ;;
  Ok (G *m (H^T *m V)).

(** ** Cell 7: the recursive solution *)

(** Line 215: [H_k = np.array([[I[k], 1.0]])] *)
Definition construct_H (Ik : Qc) : matrix := [[Ik; 1]].

(** The innovation covariance [H_k @ P_k @ H_k.T + R_k] inside line 219. *)
Definition innovation (P_k H_k R_k : matrix) : matrix :=
  H_k *m P_k *m H_k^T +m R_k.

(** Line 219: [K_k = P_k @ H_k.T @ np.linalg.inv(H_k @ P_k @ H_k.T + R_k)] *)
Definition gain (P_k H_k R_k : matrix) : result matrix :=
  Sinv <- inv (innovation P_k H_k R_k) ;;
  Ok (P_k *m H_k^T *m Sinv).

(** Line 223: [x_k = x_k + K_k @ (V[k] - H_k @ x_k)] *)
Definition estimate (x_k K_k : matrix) (Vk : vector) (H_k : matrix) : matrix :=
  x_k +m K_k *m (bsub Vk (H_k *m x_k)).

(** Line 227: [P_k = (np.eye(2) - K_k @ H_k) @ P_k] *)
Definition covariance (K_k H_k P_k : matrix) : matrix :=
  (eye 2 -m K_k *m H_k) *m P_k.

(** One measurement update, lines 215-227, on the values [I[k]] and [V[k]]:
    the new [(x_k, P_k)], or the exception of the inversion. *)
Definition update (Ik : Qc) (Vk : vector) (R_k : matrix) (xP : matrix * matrix)
  : result (matrix * matrix) :=
  let '(x_k, P_k) := xP in
  let H_k := construct_H Ik in
  K_k <- gain P_k H_k R_k ;;
  Ok (estimate x_k K_k Vk H_k, covariance K_k H_k P_k).

(** The variables of cell 7 that the loop reads and assigns.  [V], [R_k]
    and [num_meas] are assigned once and are parameters below; [H_k] and
    [K_k] are recomputed in every iteration before they are read. *)
Record env := mkenv {
  I : ndarray;
  x_k : matrix;
  P_k : matrix;
  x_hist : list vector;
  P_hist : list matrix
}.

(** Statements: a state transformer that may stop with an exception; the
    state reached when the exception is raised is kept. *)
Definition M (A : Type) : Type := env -> result A * env.

Definition ret {A} (a : A) : M A := fun s => (Ok a, s).

Definition bind {A B} (m : M A) (k : A -> M B) : M B :=
  fun s =>
    match m s with
    | (Ok a, s') => k a s'
    | (Raise e, s') => (Raise e, s')
    end.

Definition lift {A} (r : result A) : M A := fun s => (r, s).
Definition get {A} (f : env -> A) : M A := fun s => (Ok (f s), s).

Definition set_I (a : ndarray) : M unit :=
  fun s => (Ok tt, mkenv a (x_k s) (P_k s) (x_hist s) (P_hist s)).
Definition set_x_k (m : matrix) : M unit :=
  fun s => (Ok tt, mkenv (I s) m (P_k s) (x_hist s) (P_hist s)).
Definition set_P_k (m : matrix) : M unit :=
  fun s => (Ok tt, mkenv (I s) (x_k s) m (x_hist s) (P_hist s)).
Definition set_x_hist (h : list vector) : M unit :=
  fun s => (Ok tt, mkenv (I s) (x_k s) (P_k s) h (P_hist s)).
Definition set_P_hist (h : list matrix) : M unit :=
  fun s => (Ok tt, mkenv (I s) (x_k s) (P_k s) (x_hist s) h).

Notation "x <~ m ;; k" := (bind m (fun x => k))
  (at level 61, m at next level, right associativity) : np_scope.
Notation "m ;;; k" := (bind m (fun _ => k))
  (at level 61, right associativity) : np_scope.

(** Lines 214-215: [I = I.reshape(I.shape[0])], then [I[k]] for [H_k]. *)
Definition read_I (k : nat) : M Qc :=
  I0 <~ get I ;;
  I1 <~ lift (reshape1 (shape0 I0) I0) ;;
  set_I (Arr1 I1) ;;;
  lift (getitem I1 k).

(** Lines 230-231: the two history writes. *)
Definition record_history (k : nat) : M unit :=
  P <~ get P_k ;;
  Pr <~ lift (reshape2 2 2 (Arr2 P)) ;;
  Ph <~ get P_hist ;;
  Ph' <~ lift (setitem Ph (k + 1) Pr) ;;
  set_P_hist Ph' ;;;
  x <~ get x_k ;;
  xr <~ lift (reshape1 2 (Arr2 x)) ;;
  xh <~ get x_hist ;;
  xh' <~ lift (setitem xh (k + 1) xr) ;;
  set_x_hist xh'.

(** Lines 212-231: the body of the loop. *)
Definition body (V R_k : matrix) (k : nat) : M unit :=
  Ik <~ read_I k ;;
  let H_k := construct_H Ik in
  P <~ get P_k ;;
  K_k <~ lift (gain P H_k R_k) ;;
  x <~ get x_k ;;
  Vk <~ lift (getitem V k) ;;
  set_x_k (estimate x K_k Vk H_k) ;;;
  P' <~ get P_k ;;
  set_P_k (covariance K_k H_k P') ;;;
  record_history k.

(** [for k in ks: body(k)] *)
Fixpoint for_range (ks : list nat) (b : nat -> M unit) : M unit :=
  match ks with
  | [] => ret tt
  | k :: ks' => b k ;;; for_range ks' b
  end.

(** Lines 192-231, with the prior [x_0], [P_0] and the noise variance
    [R_k] of lines 192, 196 and 200 as parameters. *)
Definition recursive_solution (x_0 P_0 R_k V : matrix) : M unit :=
  set_x_k x_0 ;;;
  set_P_k P_0 ;;;
  I0 <~ get I ;;
  let num_meas := shape0 I0 in
  set_x_hist (zeros2 (num_meas + 1) 2) ;;;
  set_P_hist (zeros3 (num_meas + 1) 2 2) ;;;
  x <~ get x_k ;;
  xr <~ lift (reshape1 2 (Arr2 x)) ;;
  xh <~ get x_hist ;;
  xh' <~ lift (setitem xh 0 xr) ;;
  set_x_hist xh' ;;;
  P <~ get P_k ;;
  Pr <~ lift (reshape2 2 2 (Arr2 P)) ;;
  Ph <~ get P_hist ;;
  Ph' <~ lift (setitem Ph 0 Pr) ;;
  set_P_hist Ph' ;;;
  for_range (seq 0 num_meas) (body V R_k).

(** The environment in which cell 7 starts: [I] is bound by cell 1, the
    other names are not bound yet. *)
Definition initial_env (I0 : ndarray) : env := mkenv I0 [] [] [] [].

Definition run (I0 : ndarray) (V x_0 P_0 R_k : matrix) : result unit * env :=
  recursive_solution x_0 P_0 R_k V (initial_env I0).

(** The literals of lines 192, 196-197 and 200. *)
Definition x_0 : matrix := [lit [4.0]; lit [0.0]].
Definition P_0 : matrix := [lit [9.0; 0.0]; lit [0.0; 0.2]].
Definition R_noise : matrix := [lit [0.0225]].

Definition notebook_run : result unit * env := run I_data V_data x_0 P_0 R_noise.

(** A run over a list of measurements [(I_k, V_k)] as the notebook stores
    them: [I] and [V] are the two columns. *)
Definition column (l : vector) : matrix := [l]^T.

Definition run_on (ms : list (Qc * Qc)) (x_0 P_0 R_k : matrix) : result unit * env :=
  run (Arr2 (column (map fst ms))) (column (map snd ms)) x_0 P_0 R_k.

(** The updates of the loop one after the other, without the history. *)
Fixpoint iterate (R_k : matrix) (ms : list (Qc * Qc)) (xP : matrix * matrix)
  : result (matrix * matrix) :=
  match ms with
  | [] => Ok xP
  | (Ik, Vk) :: ms' => xP' <- update Ik [Vk] R_k xP ;; iterate R_k ms' xP'
  end.

(** ** Properties of a covariance matrix *)

Definition symmetric (P : matrix) : Prop := P^T = P.

(** The quadratic form [v P v^T] of a row [v]. *)
Definition quad (P : matrix) (v : vector) : Qc := entry ([v] *m P *m [v]^T) 0 0.

Definition psd (P : matrix) : Prop :=
  forall v : vector, length v = length P -> 0 <= quad P v.

(** A covariance matrix: symmetric and positive semi-definite. *)
Definition spsd (P : matrix) : Prop := symmetric P /\ psd P.

(** [|a - b| < tol] for a computed number [a] and decimal literals. *)
Definition close (a : Qc) (b tol : Q) : Prop := (Qabs (a - Q2Qc b) < tol)%Q.

(** ** The update in the words of the specification *)

Module Spec.

Record vec2 := mkvec { v0 : Qc; v1 : Qc }.
Record mat2 := mkmat { m00 : Qc; m01 : Qc; m10 : Qc; m11 : Qc }.

Abbreviation state := (vec2 * mat2)%type.

(** Row times column, [H x]. *)
Definition inner (H x : vec2) : Qc := v0 H * v0 x + v1 H * v1 x.

(** Matrix times column, [P H^T]. *)
Definition apply (P : mat2) (H : vec2) : vec2 :=
  mkvec (m00 P * v0 H + m01 P * v1 H) (m10 P * v0 H + m11 P * v1 H).

Definition scale (K : vec2) (r : Qc) : vec2 := mkvec (v0 K * r) (v1 K * r).
Definition vadd (x y : vec2) : vec2 := mkvec (v0 x + v0 y) (v1 x + v1 y).

(** Column times row, [K H]. *)
Definition outer (K H : vec2) : mat2 :=
  mkmat (v0 K * v0 H) (v0 K * v1 H) (v1 K * v0 H) (v1 K * v1 H).

Definition I2 : mat2 := mkmat 1 0 0 1.

Definition sub (A B : mat2) : mat2 :=
  mkmat (m00 A - m00 B) (m01 A - m01 B) (m10 A - m10 B) (m11 A - m11 B).

Definition mul (A B : mat2) : mat2 :=
  mkmat (m00 A * m00 B + m01 A * m10 B) (m00 A * m01 B + m01 A * m11 B)
        (m10 A * m00 B + m11 A * m10 B) (m10 A * m01 B + m11 A * m11 B).

(** Steps 1 and 2: [H = [I_k, 1]] and [S = H P H^T + noise_variance]. *)
Definition H_of (Ik : Qc) : vec2 := mkvec Ik 1.
Definition S_of (Ik nv : Qc) (P : mat2) : Qc :=
  inner (H_of Ik) (apply P (H_of Ik)) + nv.

(** Step 3: [K = P H^T S^-1], the inverse being the scalar reciprocal. *)
Definition K_of (Ik nv : Qc) (P : mat2) : vec2 :=
  scale (apply P (H_of Ik)) (/ S_of Ik nv P).

(** Steps 4 to 6: [r = V_k - H x], [x <- x + K r], [P <- (I2 - K H) P]
    with the [P] from before the update. *)
Definition update (Ik Vk nv : Qc) (st : state) : state :=
  let '(x, P) := st in
  let H := H_of Ik in
  let K := K_of Ik nv P in
  let r := Vk - inner H x in
  (vadd x (scale K r), mul (sub I2 (outer K H)) P).

(** The arrays of the notebook that hold a state. *)
Definition col (x : vec2) : matrix := [[v0 x]; [v1 x]].
Definition flat (x : vec2) : vector := [v0 x; v1 x].
Definition mat (P : mat2) : matrix := [[m00 P; m01 P]; [m10 P; m11 P]].
Definition arrays (st : state) : matrix * matrix := (col (fst st), mat (snd st)).

(** The states after each update of a run, up to the first one whose
    innovation covariance is zero. *)
Fixpoint states (nv : Qc) (ms : list (Qc * Qc)) (st : state) : list state :=
  match ms with
  | [] => []
  | (Ik, Vk) :: ms' =>
      if Qeq_bool (S_of Ik nv (snd st)) 0 then []
      else let st' := update Ik Vk nv st in st' :: states nv ms' st'
  end.

(** The state after all the updates of a run. *)
Definition step (nv : Qc) (st : state) (m : Qc * Qc) : state :=
  update (fst m) (snd m) nv st.
Definition final (nv : Qc) (ms : list (Qc * Qc)) (st : state) : state :=
  fold_left (step nv) ms st.

End Spec.

(** A state whose covariance is a covariance matrix. *)
Definition good (st : Spec.state) : Prop := spsd (Spec.mat (snd st)).

(** The data, the prior and the noise variance of the notebook as a list
    of measurements, a state and a number. *)
Definition measurements : list (Qc * Qc) :=
  combine (lit [0.2; 0.3; 0.4; 0.5; 0.6]) (lit [1.23; 1.38; 2.06; 2.47; 3.17]).
Definition prior : Spec.state :=
  (Spec.mkvec (Q2Qc 4.0) (Q2Qc 0.0),
   Spec.mkmat (Q2Qc 9.0) (Q2Qc 0.0) (Q2Qc 0.0) (Q2Qc 0.2)).
Definition noise : Qc := Q2Qc 0.0225.

(** Overwriting [h] from index [k] on with the elements of [xs], one
    [setitem] after the other. *)
Fixpoint fill {A} (h : list A) (k : nat) (xs : list A) : list A :=
  match xs with
  | [] => h
  | x :: xs' => fill (set_nth h k x) (S k) xs'
  end.

(** The array bound to [I] holds the values [l]: as the column that was
    loaded, or flat after the reshape of line 214. *)
Definition holds (l : vector) (a : ndarray) : Prop :=
  a = Arr2 (column l) \/ a = Arr1 l.

(** ** Sums over the measurements, and the lines of cell 9 *)

Definition sum (l : vector) : Qc := fold_right Qcplus 0 l.

(** The entries of [H.T.dot(H)] and of [H.T.dot(V)] of cell 4, as sums over
    the measurements. *)
Definition normal_matrix (ms : list (Qc * Qc)) : matrix :=
  [[sum (map (fun m => fst m * fst m) ms); sum (map fst ms)];
   [sum (map fst ms); sum (map (fun _ => 1) ms)]].
Definition normal_rhs (ms : list (Qc * Qc)) : matrix :=
  [[sum (map (fun m => fst m * snd m) ms)]; [sum (map snd ms)]].

(** The residual of a measurement against the line V = R I + b, and the
    sum of the squared residuals. *)
Definition residual (R b : Qc) (m : Qc * Qc) : Qc := snd m - (R * fst m + b).
Definition sse (ms : list (Qc * Qc)) (R b : Qc) : Qc :=
  sum (map (fun m => residual R b m * residual R b m) ms).

(** [c * M] for a number [c]. *)
Definition smul (c : Qc) (M : matrix) : matrix := map (map (Qcmult c)) M.

Fixpoint map_result {A B} (f : A -> result B) (l : list A) : result (list B) :=
  match l with
  | [] => Ok []
  | a :: t => b <- f a ;; bs <- map_result f t ;; Ok (b :: bs)
  end.

(** Line 262: [V_line = x_hist[k, 0]*I_line + x_hist[k, 1]] *)
Definition V_line_of (xh : list vector) (I_line : matrix) (k : nat) : result matrix :=
  row <- getitem xh k ;;
  a <- getitem row 0 ;;
  b <- getitem row 1 ;;
  Ok (map (map (fun i => a * i + b)) I_line).

(** Line 259: [I_line = np.arange(0, 0.8, 0.1).reshape(8, 1)], the eight
    multiples of 0.1 from 0 on. *)
Definition I_line : matrix := column (lit [0.0; 0.1; 0.2; 0.3; 0.4; 0.5; 0.6; 0.7]).

(** Lines 261-263: the lines handed to [plt.plot], one for each [k] in
    [range(num_meas)], in this order; line [k] gets the label
    'Measurement k'. *)
Definition plotted_lines (xh : list vector) (num_meas : nat) (I_line : matrix)
  : result (list matrix) :=
  map_result (V_line_of xh I_line) (seq 0 num_meas).

(** The recursive estimate against the batch problem.  With the sums
    [sii], [si], [n], [siv], [sv] of I^2, I, 1, I V and V over the
    measurements processed so far, that is with A = H^T H and c = H^T V, the
    state (x, P) reached from the prior (x0, P0) satisfies
    (nv I2 + P0 A) x = nv x0 + P0 c and (nv I2 + P0 A) P = nv P0. *)
Definition info_form (nv : Qc) (st0 : Spec.state) (sii si n siv sv : Qc)
           (st : Spec.state) : Prop :=
  let '(x0, P0) := st0 in
  let '(x, P) := st in
  let A := Spec.mkmat sii si si n in
  let c := Spec.mkvec siv sv in
  let M := Spec.mkmat (nv + Spec.m00 (Spec.mul P0 A)) (Spec.m01 (Spec.mul P0 A))
                      (Spec.m10 (Spec.mul P0 A)) (nv + Spec.m11 (Spec.mul P0 A)) in
  Spec.apply M x = Spec.vadd (Spec.scale x0 nv) (Spec.apply P0 c) /\
  Spec.mul M P = Spec.mkmat (nv * Spec.m00 P0) (nv * Spec.m01 P0)
                            (nv * Spec.m10 P0) (nv * Spec.m11 P0).

(** ** Cell 7 in binary64 *)

(** Lines 215-227 over IEEE 754 binary64, the float64 of NumPy: the same
    operations as above, each one rounded to the nearest float (ties to
    even).  A decimal literal denotes the float nearest to it, as in
    Python.  A matrix product rounds every product and every sum, in the
    order of the summation index, without fused multiply-add; read this
    way, the loop on the notebook's data ends with exactly the two numbers
    the notebook prints (lemma [binary64_recorded_output]).  [inv] is given
    for the 1x1 matrix of line 219 only: LAPACK reports a singular matrix
    when the pivot is zero (+0.0 or -0.0) and otherwise returns 1 / s, which
    is an infinity when 1 / s overflows and NaN when s is NaN.  The 2x2
    inverse of cell 4 goes through an LU factorisation whose rounding
    depends on the LAPACK build; it is not modelled here. *)

Set Warnings "-inexact-float".

Module Binary64.

Local Open Scope float_scope.

Definition vector := list float.
Definition matrix := list (list float).

(** [np.eye(n)] *)
Fixpoint eye (n : nat) : matrix :=
  match n with
  | O => []
  | S n' => (1 :: repeat 0 n') :: map (cons 0) (eye n')
  end.

(** [m.T] *)
Fixpoint transpose (m : matrix) : matrix :=
  match m with
  | [] => []
  | r :: rest =>
      match rest with
      | [] => map (fun x => [x]) r
      | _ :: _ => zip_with cons r (transpose rest)
      end
  end.

Definition dot (u v : vector) : float :=
  fold_left PrimFloat.add (zip_with PrimFloat.mul u v) 0.

(** [A @ B] for conforming 2-D arrays. *)
Definition matmul (A B : matrix) : matrix :=
  map (fun row => map (dot row) (transpose B)) A.

(** [A + B] and [A - B] for 2-D arrays of the same shape, and [v - B] for
    a 1-D [v] broadcast over the rows of [B]. *)
Definition madd (A B : matrix) : matrix := zip_with (zip_with PrimFloat.add) A B.
Definition msub (A B : matrix) : matrix := zip_with (zip_with PrimFloat.sub) A B.
Definition bsub (v : vector) (B : matrix) : matrix :=
  map (zip_with PrimFloat.sub v) B.

(** [np.linalg.inv] of a 1x1 matrix. *)
Definition inv (m : matrix) : result matrix :=
  match m with
  | [[s]] => if s =? 0 then Raise LinAlgError else Ok [[1 / s]]
  | _ =>
      if forallb (fun row => Nat.eqb (length row) (length m)) m
      then Raise Unsupported else Raise LinAlgError
  end.

(** Entry [m[i, j]]; used in statements only. *)
Definition entry (m : matrix) (i j : nat) : float := nth j (nth i m []) 0.

(** Line 215: [H_k = np.array([[I[k], 1.0]])] *)
Definition construct_H (Ik : float) : matrix := [[Ik; 1]].

(** The innovation covariance [H_k @ P_k @ H_k.T + R_k] inside line 219. *)
Definition innovation (P_k H_k R_k : matrix) : matrix :=
  madd (matmul (matmul H_k P_k) (transpose H_k)) R_k.

(** Line 219: [K_k = P_k @ H_k.T @ np.linalg.inv(H_k @ P_k @ H_k.T + R_k)] *)
Definition gain (P_k H_k R_k : matrix) : result matrix :=
  Sinv <- inv (innovation P_k H_k R_k) ;;
  Ok (matmul (matmul P_k (transpose H_k)) Sinv).

(** Line 223: [x_k = x_k + K_k @ (V[k] - H_k @ x_k)] *)
Definition estimate (x_k K_k : matrix) (Vk : vector) (H_k : matrix) : matrix :=
  madd x_k (matmul K_k (bsub Vk (matmul H_k x_k))).

(** Line 227: [P_k = (np.eye(2) - K_k @ H_k) @ P_k] *)
Definition covariance (K_k H_k P_k : matrix) : matrix :=
  matmul (msub (eye 2) (matmul K_k H_k)) P_k.

(** One measurement update, lines 215-227. *)
Definition update (Ik : float) (Vk : vector) (R_k : matrix) (xP : matrix * matrix)
  : result (matrix * matrix) :=
  let '(x_k, P_k) := xP in
  let H_k := construct_H Ik in
  K_k <- gain P_k H_k R_k ;;
  Ok (estimate x_k K_k Vk H_k, covariance K_k H_k P_k).

(** The updates of the loop one after the other. *)
Fixpoint iterate (R_k : matrix) (ms : list (float * float)) (xP : matrix * matrix)
  : result (matrix * matrix) :=
  match ms with
  | [] => Ok xP
  | (Ik, Vk) :: ms' => xP' <- update Ik [Vk] R_k xP ;; iterate R_k ms' xP'
  end.

(** The literals of lines 48-49, 192, 196-197 and 200. *)
Definition measurements : list (float * float) :=
  combine [0.2; 0.3; 0.4; 0.5; 0.6] [1.23; 1.38; 2.06; 2.47; 3.17].
Definition x_0 : matrix := [[4.0]; [0.0]].
Definition P_0 : matrix := [[9.0; 0.0]; [0.0; 0.2]].
Definition R_noise : matrix := [[0.0225]].

(** A float that is a number: a zero, a subnormal or a normal one, not an
    infinity and not NaN. *)
Definition finite (x : float) : bool :=
  match Prim2SF x with
  | S754_zero _ | S754_finite _ _ _ => true
  | _ => false
  end.

(** The rational number a float stands for, in lowest terms. *)
Definition value (x : float) : option Q :=
  match Prim2SF x with
  | S754_zero _ => Some 0%Q
  | S754_finite s m e =>
      Some (Qred (inject_Z (if s then Z.neg m else Z.pos m) * Qpower 2 e))
  | _ => None
  end.

(** The array of rationals [A] holds the values of the floats of [F]. *)
Definition values (F : matrix) (A : Np.matrix) : Prop :=
  map (map value) F = map (map (fun q : Qc => Some (this q))) A.

End Binary64.

(** A matrix of floats whose values form a covariance matrix. *)
Definition spsd64 (F : Binary64.matrix) : Prop :=
  exists A : matrix, Binary64.values F A /\ spsd A.

(** * Proofs *)

(** ** From canonical rationals to [Q], where [lra] and [nra] work *)

Lemma Qc_eq_Qeq (x y : Qc) : x = y -> (this x == this y)%Q.
Proof. now intros ->. Qed.

Lemma Qc_neq_Qeq (x y : Qc) : x <> y -> ~ (this x == this y)%Q.
Proof. intros H E. apply H. now apply Qc_is_canon. Qed.

Ltac to_Q :=
  repeat match goal with
    | H : @eq Qc _ _ |- _ => apply Qc_eq_Qeq in H
    | H : ~ @eq Qc _ _ |- _ => apply Qc_neq_Qeq in H
    | |- @eq Qc _ _ => apply Qc_is_canon
    end;
  unfold Qcle, Qclt, Qcdiv, Qcminus, Qcplus, Qcmult, Qcopp, Qcinv, Q2Qc in *;
  cbn [this] in *;
  rewrite ?Qred_correct in *.

Lemma Qsquare_nonneg (q : Q) : (0 <= q * q)%Q.
Proof. nra. Qed.

Lemma Qeq_bool_Qc (x : Qc) : Qeq_bool x 0 = true <-> x = 0.
Proof.
  rewrite Qeq_bool_iff. split.
  - intros E. now apply Qc_is_canon.
  - now intros ->.
Qed.

Lemma Qeq_bool_Qc_false (x : Qc) : Qeq_bool x 0 = false <-> x <> 0.
Proof.
  rewrite <- Qeq_bool_Qc. destruct (Qeq_bool x 0); intuition congruence.
Qed.

(** ** The update of the notebook against the update of the specification *)

Ltac spec_unfold :=
  cbv [Spec.col Spec.flat Spec.mat Spec.arrays Spec.update Spec.K_of Spec.S_of
       Spec.H_of Spec.scale Spec.apply Spec.vadd Spec.inner Spec.outer Spec.sub
       Spec.mul Spec.I2 Spec.v0 Spec.v1 Spec.m00 Spec.m01 Spec.m10 Spec.m11
       fst snd] in *.

(** Equal lists entry by entry. *)
Ltac entrywise :=
  repeat match goal with
    | |- _ :: _ = _ :: _ => apply (f_equal2 cons)
    | |- @nil _ = @nil _ => reflexivity
    end.

Lemma innovation_arrays (Ik nv : Qc) (P : Spec.mat2) :
  innovation (Spec.mat P) (construct_H Ik) [[nv]] = [[Spec.S_of Ik nv P]].
Proof.
  destruct P as [a b c d]. spec_unfold. cbn. entrywise. ring.
Qed.

Lemma gain_arrays (Ik nv : Qc) (P : Spec.mat2) :
  gain (Spec.mat P) (construct_H Ik) [[nv]] =
  if Qeq_bool (Spec.S_of Ik nv P) 0 then Raise LinAlgError
  else Ok (Spec.col (Spec.K_of Ik nv P)).
Proof.
  unfold gain. rewrite innovation_arrays. cbn [inv rbind].
  destruct (Qeq_bool (Spec.S_of Ik nv P) 0); [reflexivity|].
  cbn [rbind]. f_equal. destruct P as [a b c d].
  unfold Spec.K_of. generalize (/ Spec.S_of Ik nv (Spec.mkmat a b c d)). intros z.
  spec_unfold. cbn. entrywise; ring.
Qed.

Lemma estimate_arrays (Ik Vk : Qc) (x K : Spec.vec2) :
  estimate (Spec.col x) (Spec.col K) [Vk] (construct_H Ik) =
  Spec.col (Spec.vadd x (Spec.scale K (Vk - Spec.inner (Spec.H_of Ik) x))).
Proof.
  destruct x as [x1 x2], K as [k1 k2]. spec_unfold. cbn. entrywise; ring.
Qed.

Lemma covariance_arrays (Ik : Qc) (K : Spec.vec2) (P : Spec.mat2) :
  covariance (Spec.col K) (construct_H Ik) (Spec.mat P) =
  Spec.mat (Spec.mul (Spec.sub Spec.I2 (Spec.outer K (Spec.H_of Ik))) P).
Proof.
  destruct K as [k1 k2], P as [a b c d]. spec_unfold. cbn. entrywise; ring.
Qed.

Lemma update_arrays (Ik Vk nv : Qc) (st : Spec.state) :
  update Ik [Vk] [[nv]] (Spec.arrays st) =
  if Qeq_bool (Spec.S_of Ik nv (snd st)) 0 then Raise LinAlgError
  else Ok (Spec.arrays (Spec.update Ik Vk nv st)).
Proof.
  destruct st as [x P]. unfold update, Spec.arrays. cbn [fst snd].
  rewrite gain_arrays.
  destruct (Qeq_bool (Spec.S_of Ik nv P) 0); [reflexivity|].
  cbn [rbind]. rewrite estimate_arrays, covariance_arrays. reflexivity.
Qed.

(** ** Arrays and reshapes *)

Lemma column_map (l : vector) : column l = map (fun x => [x]) l.
Proof. reflexivity. Qed.

Lemma concat_column (l : vector) : concat (column l) = l.
Proof.
  rewrite column_map. induction l as [|a l IH]; [reflexivity|].
  cbn. now rewrite IH.
Qed.

Lemma length_column (l : vector) : length (column l) = length l.
Proof. rewrite column_map. apply length_map. Qed.

Lemma nth_error_column (l : vector) (k : nat) :
  nth_error (column l) k = option_map (fun x => [x]) (nth_error l k).
Proof. rewrite column_map. apply nth_error_map. Qed.

Lemma ravel_holds (l : vector) (a : ndarray) : holds l a -> ravel a = l.
Proof. intros [-> | ->]; [apply concat_column | reflexivity]. Qed.

Lemma shape0_holds (l : vector) (a : ndarray) : holds l a -> shape0 a = length l.
Proof. intros [-> | ->]; [apply length_column | reflexivity]. Qed.

Lemma reshape1_holds (l : vector) (a : ndarray) :
  holds l a -> reshape1 (shape0 a) a = Ok l.
Proof.
  intros H. unfold reshape1.
  rewrite (ravel_holds l a H), (shape0_holds l a H), Nat.eqb_refl. reflexivity.
Qed.

Lemma reshape1_col (x : Spec.vec2) : reshape1 2 (Arr2 (Spec.col x)) = Ok (Spec.flat x).
Proof. reflexivity. Qed.

Lemma reshape2_mat (P : Spec.mat2) : reshape2 2 2 (Arr2 (Spec.mat P)) = Ok (Spec.mat P).
Proof. reflexivity. Qed.

Lemma read_I_holds (l : vector) (k : nat) (s : env) :
  holds l (I s) ->
  read_I k s = (getitem l k, mkenv (Arr1 l) (x_k s) (P_k s) (x_hist s) (P_hist s)).
Proof.
  intros H. unfold read_I, bind, get, lift, set_I.
  rewrite (reshape1_holds l (I s) H). reflexivity.
Qed.

Lemma record_history_arrays (k : nat) (a : ndarray) (st : Spec.state)
      (xh : list vector) (Ph : list matrix) :
  (k + 1 < length xh)%nat -> (k + 1 < length Ph)%nat ->
  record_history k (mkenv a (Spec.col (fst st)) (Spec.mat (snd st)) xh Ph) =
  (Ok tt, mkenv a (Spec.col (fst st)) (Spec.mat (snd st))
                (set_nth xh (k + 1) (Spec.flat (fst st)))
                (set_nth Ph (k + 1) (Spec.mat (snd st)))).
Proof.
  intros Hx HP. apply Nat.ltb_lt in Hx, HP.
  unfold record_history, bind, get, lift, set_P_hist, set_x_hist, setitem.
  cbn [I x_k P_k x_hist P_hist].
  rewrite reshape2_mat, HP. cbn [I x_k P_k x_hist P_hist].
  rewrite reshape1_col, Hx. reflexivity.
Qed.

(** One iteration of the loop on well-shaped arrays. *)
Lemma body_arrays (l vs : vector) (nv Ik Vk : Qc) (k : nat) (a : ndarray)
      (st : Spec.state) (xh : list vector) (Ph : list matrix) :
  holds l a -> nth_error l k = Some Ik -> nth_error vs k = Some Vk ->
  (k + 1 < length xh)%nat -> (k + 1 < length Ph)%nat ->
  body (column vs) [[nv]] k (mkenv a (Spec.col (fst st)) (Spec.mat (snd st)) xh Ph) =
  if Qeq_bool (Spec.S_of Ik nv (snd st)) 0
  then (Raise LinAlgError,
        mkenv (Arr1 l) (Spec.col (fst st)) (Spec.mat (snd st)) xh Ph)
  else let st' := Spec.update Ik Vk nv st in
       (Ok tt, mkenv (Arr1 l) (Spec.col (fst st')) (Spec.mat (snd st'))
                     (set_nth xh (k + 1) (Spec.flat (fst st')))
                     (set_nth Ph (k + 1) (Spec.mat (snd st')))).
Proof.
  intros Ha Hi Hv Hx HP. unfold body. unfold bind at 1.
  rewrite (read_I_holds l k (mkenv a (Spec.col (fst st)) (Spec.mat (snd st)) xh Ph) Ha).
  unfold getitem at 1. rewrite Hi.
  cbn [I x_k P_k x_hist P_hist].
  unfold bind at 1. unfold get at 1. cbn [I x_k P_k x_hist P_hist].
  unfold bind at 1. unfold lift at 1. rewrite gain_arrays.
  destruct (Qeq_bool (Spec.S_of Ik nv (snd st)) 0) eqn:E; [reflexivity|].
  unfold bind at 1. unfold get at 1. cbn [I x_k P_k x_hist P_hist].
  unfold bind at 1. unfold lift at 1, getitem.
  rewrite nth_error_column, Hv. cbn [option_map].
  unfold bind at 1. unfold set_x_k at 1. cbn [I x_k P_k x_hist P_hist].
  unfold bind at 1. unfold get at 1. cbn [I x_k P_k x_hist P_hist].
  unfold bind at 1. unfold set_P_k at 1. cbn [I x_k P_k x_hist P_hist].
  rewrite estimate_arrays, covariance_arrays.
  destruct st as [x P].
  exact (record_history_arrays k (Arr1 l) (Spec.update Ik Vk nv (x, P)) xh Ph Hx HP).
Qed.

(** ** The loop *)

Lemma last_cons {A} (a d : A) (l : list A) : last (a :: l) d = last l a.
Proof.
  revert a d. induction l as [|b l IH]; intros a d; [reflexivity|].
  change (last (a :: b :: l) d) with (last (b :: l) d).
  now rewrite !IH.
Qed.

Lemma length_set_nth {A} (l : list A) (k : nat) (a : A) :
  length (set_nth l k a) = length l.
Proof.
  revert k. induction l as [|h t IH]; intros [|k]; cbn; auto.
Qed.

Lemma nth_error_pre {A} (pre ms : list A) (m : A) :
  nth_error (pre ++ m :: ms) (length pre) = Some m.
Proof.
  rewrite nth_error_app2 by lia. now rewrite Nat.sub_diag.
Qed.

Section Loop.

Variable nv : Qc.

(** The loop from iteration [length pre] on, the measurements [pre] being
    processed already and [ms] left. *)
Lemma for_range_arrays (ms pre : list (Qc * Qc)) (a : ndarray) (st : Spec.state)
      (xh : list vector) (Ph : list matrix) :
  holds (map fst (pre ++ ms)) a ->
  length xh = (length pre + length ms + 1)%nat ->
  length Ph = (length pre + length ms + 1)%nat ->
  for_range (seq (length pre) (length ms))
            (body (column (map snd (pre ++ ms))) [[nv]])
            (mkenv a (Spec.col (fst st)) (Spec.mat (snd st)) xh Ph) =
  (if Nat.eqb (length (Spec.states nv ms st)) (length ms)
   then Ok tt else Raise LinAlgError,
   mkenv (match ms with [] => a | _ :: _ => Arr1 (map fst (pre ++ ms)) end)
         (Spec.col (fst (last (Spec.states nv ms st) st)))
         (Spec.mat (snd (last (Spec.states nv ms st) st)))
         (fill xh (S (length pre))
               (map (fun s => Spec.flat (fst s)) (Spec.states nv ms st)))
         (fill Ph (S (length pre))
               (map (fun s => Spec.mat (snd s)) (Spec.states nv ms st)))).
Proof.
  revert pre a st xh Ph.
  induction ms as [|[Ik Vk] ms IH]; intros pre a st xh Ph Ha Hx HP.
  - reflexivity.
  - cbn [length seq for_range]. unfold bind at 1.
    rewrite (body_arrays (map fst (pre ++ (Ik, Vk) :: ms))
               (map snd (pre ++ (Ik, Vk) :: ms)) nv Ik Vk (length pre) a st xh Ph Ha).
    2: { rewrite nth_error_map, nth_error_pre. reflexivity. }
    2: { rewrite nth_error_map, nth_error_pre. reflexivity. }
    2, 3: cbn [length] in *; lia.
    cbn [Spec.states].
    destruct (Qeq_bool (Spec.S_of Ik nv (snd st)) 0); [reflexivity|].
    cbv zeta. rewrite Nat.add_1_r.
    set (st' := Spec.update Ik Vk nv st).
    specialize (IH (pre ++ [(Ik, Vk)]) (Arr1 (map fst (pre ++ (Ik, Vk) :: ms))) st'
                   (set_nth xh (S (length pre)) (Spec.flat (fst st')))
                   (set_nth Ph (S (length pre)) (Spec.mat (snd st')))).
    rewrite <- app_assoc in IH. cbn [app] in IH.
    rewrite length_app in IH. cbn [length] in IH.
    replace (length pre + 1)%nat with (S (length pre)) in IH by lia. rewrite IH.
    + cbn [length Nat.eqb map fill]. rewrite last_cons.
      destruct ms; reflexivity.
    + right. reflexivity.
    + rewrite length_set_nth. cbn [length] in *. lia.
    + rewrite length_set_nth. cbn [length] in *. lia.
Qed.

End Loop.

(** ** The history arrays *)

Lemma set_nth_app {A} (pre rest : list A) (r a : A) :
  set_nth (pre ++ r :: rest) (length pre) a = pre ++ a :: rest.
Proof.
  induction pre as [|p pre IH]; cbn; [reflexivity | now rewrite IH].
Qed.

Lemma fill_app {A} (xs pre rest : list A) :
  (length xs <= length rest)%nat ->
  fill (pre ++ rest) (length pre) xs = pre ++ xs ++ skipn (length xs) rest.
Proof.
  revert pre rest. induction xs as [|x xs IH]; intros pre rest Hlen.
  - reflexivity.
  - destruct rest as [|r rest]; cbn [length] in Hlen; [lia|].
    cbn [fill]. rewrite set_nth_app.
    replace (pre ++ x :: rest) with ((pre ++ [x]) ++ rest)
      by (now rewrite <- app_assoc).
    replace (S (length pre)) with (length (pre ++ [x]))
      by (rewrite length_app; cbn; lia).
    rewrite IH by lia. now rewrite <- app_assoc.
Qed.

Lemma skipn_repeat {A} (a : A) (k n : nat) :
  skipn k (repeat a n) = repeat a (n - k).
Proof.
  revert n. induction k as [|k IH]; intros [|n]; cbn; auto.
Qed.

Lemma length_states_le (nv : Qc) (ms : list (Qc * Qc)) (st : Spec.state) :
  (length (Spec.states nv ms st) <= length ms)%nat.
Proof.
  revert st. induction ms as [|[Ik Vk] ms IH]; intros st; cbn; [lia|].
  destruct (Qeq_bool _ 0); cbn; [lia|].
  specialize (IH (Spec.update Ik Vk nv st)). lia.
Qed.

(** The whole of cell 7 on well-shaped arrays: the outcome, the final
    estimate and the two history arrays. *)
Lemma run_on_arrays (nv : Qc) (ms : list (Qc * Qc)) (st : Spec.state) :
  let sts := Spec.states nv ms st in
  let rest := (length ms - length sts)%nat in
  run_on ms (Spec.col (fst st)) (Spec.mat (snd st)) [[nv]] =
  (if Nat.eqb (length sts) (length ms) then Ok tt else Raise LinAlgError,
   mkenv (match ms with
          | [] => Arr2 (column [])
          | _ :: _ => Arr1 (map fst ms)
          end)
         (Spec.col (fst (last sts st)))
         (Spec.mat (snd (last sts st)))
         (map (fun s => Spec.flat (fst s)) (st :: sts) ++ repeat (zeros1 2) rest)
         (map (fun s => Spec.mat (snd s)) (st :: sts) ++ repeat (zeros2 2 2) rest)).
Proof.
  intros sts rest.
  pose proof (length_states_le nv ms st) as Hle. fold sts in Hle.
  unfold run_on, run, recursive_solution, initial_env.
  cbv [bind get lift set_x_k set_P_k set_x_hist set_P_hist I x_k P_k x_hist P_hist].
  rewrite reshape1_col, reshape2_mat.
  unfold shape0. rewrite length_column, length_map, Nat.add_1_r.
  change (zeros2 (S (length ms)) 2)
    with (zeros1 2 :: repeat (zeros1 2) (length ms)).
  change (zeros3 (S (length ms)) 2 2)
    with (zeros2 2 2 :: repeat (zeros2 2 2) (length ms)).
  unfold setitem. cbn [length Nat.ltb Nat.leb set_nth].
  pose proof (for_range_arrays nv ms [] (Arr2 (column (map fst ms))) st
                (Spec.flat (fst st) :: repeat (zeros1 2) (length ms))
                (Spec.mat (snd st) :: repeat (zeros2 2 2) (length ms))) as E.
  cbn [app length] in E. rewrite !repeat_length in E.
  rewrite E by (try (left; reflexivity); lia). clear E.
  fold sts.
  rewrite (fill_app _ [Spec.flat (fst st)] (repeat (zeros1 2) (length ms)))
    by (rewrite length_map, repeat_length; exact Hle).
  rewrite (fill_app _ [Spec.mat (snd st)] (repeat (zeros2 2 2) (length ms)))
    by (rewrite length_map, repeat_length; exact Hle).
  rewrite !length_map, !skipn_repeat. fold rest.
  destruct ms; reflexivity.
Qed.

(** ** The pure iteration against the states of a run *)

Lemma iterate_arrays (nv : Qc) (ms : list (Qc * Qc)) (st : Spec.state) :
  iterate [[nv]] ms (Spec.arrays st) =
  if Nat.eqb (length (Spec.states nv ms st)) (length ms)
  then Ok (Spec.arrays (last (Spec.states nv ms st) st))
  else Raise LinAlgError.
Proof.
  revert st. induction ms as [|[Ik Vk] ms IH]; intros st; [reflexivity|].
  cbn [iterate Spec.states]. rewrite update_arrays.
  destruct (Qeq_bool (Spec.S_of Ik nv (snd st)) 0); [reflexivity|].
  cbn [rbind]. rewrite IH. cbv zeta. cbn [length Nat.eqb]. now rewrite last_cons.
Qed.

Lemma states_firstn (nv : Qc) (k : nat) (ms : list (Qc * Qc)) (st : Spec.state) :
  Spec.states nv (firstn k ms) st = firstn k (Spec.states nv ms st).
Proof.
  revert k st. induction ms as [|[Ik Vk] ms IH]; intros [|k] st; try reflexivity.
  cbn [firstn Spec.states]. destruct (Qeq_bool _ 0); [reflexivity|].
  cbv zeta. cbn [firstn]. now rewrite IH.
Qed.

Lemma last_firstn_nth {A} (k : nat) (l : list A) (d : A) :
  (k <= length l)%nat -> last (firstn k l) d = nth k (d :: l) d.
Proof.
  revert l d. induction k as [|k IH]; intros l d Hk; [reflexivity|].
  destruct l as [|a l]; cbn [length] in Hk; [lia|].
  cbn [firstn]. rewrite last_cons, IH by lia.
  change (nth (S k) (d :: a :: l) d) with (nth k (a :: l) d).
  apply nth_indep. cbn [length]. lia.
Qed.

(** The state after the first [k] measurements, when the run gets that far. *)
Lemma iterate_firstn (nv : Qc) (k : nat) (ms : list (Qc * Qc)) (st : Spec.state) :
  (k <= length (Spec.states nv ms st))%nat ->
  iterate [[nv]] (firstn k ms) (Spec.arrays st) =
  Ok (Spec.arrays (nth k (st :: Spec.states nv ms st) st)).
Proof.
  intros Hk. pose proof (length_states_le nv ms st) as Hle.
  rewrite iterate_arrays, states_firstn, !length_firstn.
  replace (Nat.min k (length (Spec.states nv ms st))) with k by lia.
  replace (Nat.min k (length ms)) with k by lia.
  rewrite Nat.eqb_refl. now rewrite last_firstn_nth.
Qed.

(** ** Symmetric positive semi-definite 2x2 matrices *)

Lemma symmetric_mat (P : Spec.mat2) :
  symmetric (Spec.mat P) <-> Spec.m01 P = Spec.m10 P.
Proof.
  destruct P as [a b c d]. unfold symmetric. cbn. split.
  - intros E. now inversion E.
  - now intros ->.
Qed.

Lemma quad_mat (P : Spec.mat2) (w1 w2 : Qc) :
  quad (Spec.mat P) [w1; w2] =
  Spec.inner (Spec.mkvec w1 w2) (Spec.apply P (Spec.mkvec w1 w2)).
Proof.
  destruct P as [a b c d]. spec_unfold. unfold quad. cbn. ring.
Qed.

Lemma psd_mat (P : Spec.mat2) :
  psd (Spec.mat P) <->
  forall w1 w2 : Qc,
    0 <= Spec.inner (Spec.mkvec w1 w2) (Spec.apply P (Spec.mkvec w1 w2)).
Proof.
  split.
  - intros H w1 w2. rewrite <- quad_mat. now apply H.
  - intros H v Hv. destruct v as [|w1 [|w2 [|w3 v]]]; try discriminate Hv.
    rewrite quad_mat. apply H.
Qed.

(** The leading entries and the determinant of a symmetric positive
    semi-definite matrix are not negative, and conversely. *)
Lemma psd_minors (a b d : Qc) :
  psd (Spec.mat (Spec.mkmat a b b d)) <->
  0 <= a /\ 0 <= d /\ 0 <= a * d - b * b.
Proof.
  rewrite psd_mat. spec_unfold. split.
  - intros H.
    pose proof (H 1 0) as Ha. pose proof (H 0 1) as Hd.
    pose proof (H (- b) a) as H1. pose proof (H d (- b)) as H2.
    pose proof (H 1 (- b)) as H3.
    to_Q. split; [nra|]. split; [nra|].
    set (A := this a) in *. set (B := this b) in *. set (D := this d) in *.
    destruct (Qlt_le_dec 0 A) as [HA | HA]; [nra|].
    destruct (Qlt_le_dec 0 D) as [HD | HD]; [nra|].
    assert (A == 0)%Q as EA by lra. assert (D == 0)%Q as ED by lra.
    rewrite EA, ED in *. nra.
  - intros (Ha & Hd & HD) w1 w2. to_Q.
    generalize dependent (this a). generalize dependent (this b).
    generalize dependent (this d). generalize (this w1) (this w2).
    intros x y D Hd B A Ha HD.
    assert (0 <= y * y)%Q as Hyy by nra.
    assert (0 <= (A * D + - (B * B)) * (y * y))%Q as Hdet
        by (apply Qmult_le_0_compat; assumption).
    pose proof (Qsquare_nonneg (A * x + B * y)) as Hsq.
    destruct (Qlt_le_dec 0 A) as [HA | HA].
    + assert (0 <= A * (x * (A * x + B * y) + y * (B * x + D * y)))%Q by nra.
      nra.
    + assert (A == 0)%Q as EA by lra. rewrite EA in *.
      assert (B * B == 0)%Q as EB by nra.
      assert (B == 0)%Q as EB0 by nra.
      rewrite EB0. nra.
Qed.

(** ** One update on a covariance matrix *)

Lemma S_of_pos (Ik nv : Qc) (P : Spec.mat2) :
  psd (Spec.mat P) -> 0 < nv -> 0 < Spec.S_of Ik nv P.
Proof.
  intros HP Hnv. rewrite psd_mat in HP. specialize (HP Ik 1).
  unfold Spec.S_of, Spec.H_of. to_Q. lra.
Qed.

Lemma S_of_nonzero (Ik nv : Qc) (P : Spec.mat2) :
  psd (Spec.mat P) -> 0 < nv -> Qeq_bool (Spec.S_of Ik nv P) 0 = false.
Proof.
  intros HP Hnv. apply Qeq_bool_Qc_false.
  pose proof (S_of_pos Ik nv P HP Hnv) as H. intros E. rewrite E in H.
  exact (Qlt_irrefl _ H).
Qed.

(** The entries of the new covariance, cleared of the division by [S]. *)
Lemma update_entries (Ik Vk nv a b d : Qc) (x : Spec.vec2) :
  let P := Spec.mkmat a b b d in
  let S := Spec.S_of Ik nv P in
  let P' := snd (Spec.update Ik Vk nv (x, P)) in
  S <> 0 ->
  Spec.m01 P' = Spec.m10 P' /\
  Spec.m00 P' * S = a * d - b * b + a * nv /\
  Spec.m11 P' * S = (a * d - b * b) * (Ik * Ik) + d * nv /\
  (Spec.m00 P' * Spec.m11 P' - Spec.m01 P' * Spec.m01 P') * S = (a * d - b * b) * nv /\
  (a - Spec.m00 P') * S = (a * Ik + b) * (a * Ik + b) /\
  (d - Spec.m11 P') * S = (b * Ik + d) * (b * Ik + d).
Proof.
  intros P S P' HS. subst P' S P. spec_unfold.
  repeat split; field; intros E; apply HS; rewrite <- E; ring.
Qed.

Lemma update_spsd (Ik Vk nv : Qc) (st : Spec.state) :
  spsd (Spec.mat (snd st)) -> 0 < nv ->
  spsd (Spec.mat (snd (Spec.update Ik Vk nv st))).
Proof.
  destruct st as [x [a b c d]]. cbn [snd]. intros [Hsym Hpsd] Hnv.
  apply symmetric_mat in Hsym. cbn in Hsym. subst c.
  pose proof (S_of_pos Ik nv _ Hpsd Hnv) as HS.
  assert (Spec.S_of Ik nv (Spec.mkmat a b b d) <> 0) as HS0.
  { intros E. rewrite E in HS. exact (Qlt_irrefl _ HS). }
  destruct (update_entries Ik Vk nv a b d x HS0) as (E1 & E2 & E3 & E4 & _).
  apply psd_minors in Hpsd. destruct Hpsd as (Ha & Hd & HD).
  destruct (snd (Spec.update Ik Vk nv (x, Spec.mkmat a b b d))) as [a' b' c' d'].
  cbn [Spec.m00 Spec.m01 Spec.m10 Spec.m11] in *. subst c'.
  split; [now apply symmetric_mat|].
  apply psd_minors.
  generalize dependent (Spec.S_of Ik nv (Spec.mkmat a b b d)). intros S HS _ E2 E3 E4.
  to_Q. repeat split; nra.
Qed.

Lemma update_diag (Ik Vk nv : Qc) (st : Spec.state) :
  spsd (Spec.mat (snd st)) -> 0 < nv ->
  Spec.m00 (snd (Spec.update Ik Vk nv st)) <= Spec.m00 (snd st) /\
  Spec.m11 (snd (Spec.update Ik Vk nv st)) <= Spec.m11 (snd st).
Proof.
  destruct st as [x [a b c d]]. cbn [snd]. intros [Hsym Hpsd] Hnv.
  apply symmetric_mat in Hsym. cbn in Hsym. subst c.
  pose proof (S_of_pos Ik nv _ Hpsd Hnv) as HS.
  assert (Spec.S_of Ik nv (Spec.mkmat a b b d) <> 0) as HS0.
  { intros E. rewrite E in HS. exact (Qlt_irrefl _ HS). }
  destruct (update_entries Ik Vk nv a b d x HS0) as (_ & _ & _ & _ & E5 & E6).
  destruct (snd (Spec.update Ik Vk nv (x, Spec.mkmat a b b d))) as [a' b' c' d'].
  cbn [Spec.m00 Spec.m01 Spec.m10 Spec.m11] in *.
  generalize dependent (Spec.S_of Ik nv (Spec.mkmat a b b d)). intros S HS _ E5 E6.
  pose proof (Qsquare_nonneg (this a * this Ik + this b)) as H5.
  pose proof (Qsquare_nonneg (this b * this Ik + this d)) as H6.
  to_Q. split; nra.
Qed.

(** ** Two updates commute *)

(** Side conditions of [field]: a denominator that is not zero by
    hypothesis [H], up to [ring]; and the cleared denominator of the second
    update, which is the one of hypothesis [H12] times the one of [H2]. *)
Ltac nonzero H := let E := fresh "E" in intros E; apply H; rewrite <- E; ring.

Ltac cleared H2 H12 :=
  match type of H2 with
  | ?s2 <> _ =>
      match type of H12 with
      | ?s12 <> _ =>
          match goal with
          | |- ?q <> _ =>
              let E := fresh "E" in
              intros E; apply H12;
              replace s12 with (q / s2) by (field; nonzero H2);
              rewrite E; apply Qcmult_0_l
          end
      end
  end.

Lemma update_commute (i1 v1 i2 v2 nv : Qc) (st : Spec.state) :
  Spec.S_of i1 nv (snd st) <> 0 ->
  Spec.S_of i2 nv (snd st) <> 0 ->
  Spec.S_of i1 nv (snd (Spec.update i2 v2 nv st)) <> 0 ->
  Spec.update i2 v2 nv (Spec.update i1 v1 nv st) =
  Spec.update i1 v1 nv (Spec.update i2 v2 nv st).
Proof.
  destruct st as [[x1 x2] [a b c d]]. intros H1 H2 H12.
  spec_unfold.
  f_equal; f_equal; field;
    (split; [nonzero H2 | split; [cleared H2 H12 | nonzero H1]]).
Qed.

(** ** Runs from a covariance matrix *)

Section Runs.

Variable nv : Qc.
Hypothesis nv_pos : 0 < nv.

(** No inversion fails, and every state of the run carries a covariance
    matrix. *)
Lemma states_spsd (ms : list (Qc * Qc)) (st : Spec.state) :
  good st ->
  length (Spec.states nv ms st) = length ms /\
  last (Spec.states nv ms st) st = Spec.final nv ms st /\
  Forall good (Spec.states nv ms st).
Proof.
  revert st. induction ms as [|[Ik Vk] ms IH]; intros st Hst.
  - repeat split. constructor.
  - cbn [Spec.states length].
    rewrite (S_of_nonzero Ik nv (snd st)) by (apply Hst || exact nv_pos).
    cbv zeta.
    assert (good (Spec.update Ik Vk nv st)) as Hst'
        by (apply update_spsd; assumption).
    destruct (IH _ Hst') as (Hlen & Hlast & Hall).
    cbn [length]. rewrite last_cons, Hlen, Hlast. repeat split.
    constructor; assumption.
Qed.

Lemma final_spsd (ms : list (Qc * Qc)) (st : Spec.state) :
  good st -> good (Spec.final nv ms st).
Proof.
  revert st. induction ms as [|m ms IH]; intros st Hst; [exact Hst|].
  apply IH. apply update_spsd; assumption.
Qed.

(** The final state does not depend on the order of the measurements. *)
Lemma final_permutation (ms ms' : list (Qc * Qc)) :
  Permutation ms ms' ->
  forall st, good st -> Spec.final nv ms st = Spec.final nv ms' st.
Proof.
  induction 1 as [| m l l' Hperm IH | m1 m2 l | l l' l'' H1 IH1 H2 IH2];
    intros st Hst.
  - reflexivity.
  - apply IH. apply update_spsd; assumption.
  - unfold Spec.final. cbn [fold_left]. f_equal. unfold Spec.step.
    assert (forall Ik st0, good st0 -> Spec.S_of Ik nv (snd st0) <> 0) as Hnz.
    { intros Ik st0 [_ H0]. apply Qeq_bool_Qc_false.
      apply S_of_nonzero; assumption. }
    apply update_commute; apply Hnz; try assumption.
    apply update_spsd; assumption.
  - rewrite IH1 by assumption. apply IH2. assumption.
Qed.

(** A run from a covariance matrix completes. *)
Lemma run_on_spsd (ms : list (Qc * Qc)) (st : Spec.state) :
  good st ->
  run_on ms (Spec.col (fst st)) (Spec.mat (snd st)) [[nv]] =
  (Ok tt,
   mkenv (match ms with
          | [] => Arr2 (column [])
          | _ :: _ => Arr1 (map fst ms)
          end)
         (Spec.col (fst (Spec.final nv ms st)))
         (Spec.mat (snd (Spec.final nv ms st)))
         (map (fun s => Spec.flat (fst s)) (st :: Spec.states nv ms st))
         (map (fun s => Spec.mat (snd s)) (st :: Spec.states nv ms st))).
Proof.
  intros Hst. destruct (states_spsd ms st Hst) as (Hlen & Hlast & _).
  rewrite run_on_arrays. cbv zeta.
  rewrite Hlen, Hlast, Nat.eqb_refl, Nat.sub_diag. cbn [repeat].
  now rewrite !app_nil_r.
Qed.

(** Consecutive states of a run are one update apart. *)
Lemma states_nth (ms : list (Qc * Qc)) (st d : Spec.state) (k : nat) :
  good st -> (k < length ms)%nat ->
  exists Ik Vk : Qc,
    nth_error ms k = Some (Ik, Vk) /\
    good (nth k (st :: Spec.states nv ms st) d) /\
    nth (S k) (st :: Spec.states nv ms st) d =
    Spec.update Ik Vk nv (nth k (st :: Spec.states nv ms st) d).
Proof.
  revert st k. induction ms as [|[Ik Vk] ms IH]; intros st k Hst Hk;
    cbn [length] in Hk; [lia|].
  cbn [Spec.states].
  rewrite (S_of_nonzero Ik nv (snd st)) by (apply Hst || exact nv_pos).
  cbv zeta. destruct k as [|k].
  - exists Ik, Vk. split; [reflexivity|]. split; [exact Hst | reflexivity].
  - assert (good (Spec.update Ik Vk nv st)) as Hst'
        by (apply update_spsd; assumption).
    destruct (IH (Spec.update Ik Vk nv st) k Hst' ltac:(lia))
      as (Ik' & Vk' & Hm & Hg & Hn).
    exists Ik', Vk'. split; [exact Hm|]. split; [exact Hg | exact Hn].
Qed.

End Runs.

(** ** The notebook's prior, and entries of the history *)

Lemma prior_psd : psd (Spec.mat (snd prior)).
Proof.
  apply (psd_minors (Q2Qc 9.0) (Q2Qc 0.0) (Q2Qc 0.2)).
  repeat split; vm_compute; discriminate.
Qed.

Lemma prior_spsd : spsd (Spec.mat (snd prior)).
Proof. split; [reflexivity | exact prior_psd]. Qed.

Lemma noise_pos : 0 < noise.
Proof. reflexivity. Qed.

Lemma entry_mat (P : Spec.mat2) :
  entry (Spec.mat P) 0 0 = Spec.m00 P /\ entry (Spec.mat P) 1 1 = Spec.m11 P.
Proof. destruct P. split; reflexivity. Qed.

Lemma nth_map_in {A B} (f : A -> B) (l : list A) (k : nat) (d : A) (e : B) :
  (k < length l)%nat -> nth k (map f l) e = f (nth k l d).
Proof.
  intros Hk. rewrite (nth_indep _ e (f d)) by (now rewrite length_map).
  apply map_nth.
Qed.

Lemma nth_error_history {A} (f : Spec.state -> A) (sts : list Spec.state)
      (pad : list A) (k : nat) (d : Spec.state) :
  (k < length sts)%nat ->
  nth_error (map f sts ++ pad) k = Some (f (nth k sts d)).
Proof.
  intros Hk. rewrite nth_error_app1 by (now rewrite length_map).
  rewrite nth_error_map, (nth_error_nth' sts d Hk). reflexivity.
Qed.

(** The run of the notebook is the run over its list of measurements. *)
Lemma notebook_run_on :
  notebook_run =
  run_on measurements (Spec.col (fst prior)) (Spec.mat (snd prior)) [[noise]].
Proof. reflexivity. Qed.

(** Without symmetry the diagonal can grow: the matrix [[0, 1], [-1, 0]] has
    the quadratic form 0, and one update at I = 0 with the noise variance 1
    turns its entry [0, 0] from 0 into 1. *)
Lemma diagonal_needs_symmetry :
  psd [[0; 1]; [- (1); 0]] /\
  exists x' P' : matrix,
    update 0 [0] [[1]] ([[0]; [0]], [[0; 1]; [- (1); 0]]) = Ok (x', P') /\
    entry P' 0 0 = 1.
Proof.
  split.
  - change [[0; 1]; [- (1); 0]] with (Spec.mat (Spec.mkmat 0 1 (- (1)) 0)).
    apply psd_mat. intros w1 w2. spec_unfold.
    replace (w1 * (0 * w1 + 1 * w2) + w2 * (- (1) * w1 + 0 * w2)) with 0 by ring.
    apply Qcle_refl.
  - do 2 eexists. split; [vm_compute; reflexivity|].
    apply Qc_is_canon. vm_compute. reflexivity.
Qed.

(** ** Binary64: products and sums with zero *)

Lemma add_mul_zero_r (y : float) :
  Binary64.finite y = true -> (0 + y * 0 = 0)%float.
Proof.
  unfold Binary64.finite. intros H. apply Prim2SF_inj.
  rewrite add_spec, mul_spec.
  destruct (Prim2SF y) as [[|]|[|]| |[|] m e]; try discriminate H; reflexivity.
Qed.

Lemma add_mul_zero_l (y : float) :
  Binary64.finite y = true -> (0 + 0 * y = 0)%float.
Proof.
  unfold Binary64.finite. intros H. apply Prim2SF_inj.
  rewrite add_spec, mul_spec.
  destruct (Prim2SF y) as [[|]|[|]| |[|] m e]; try discriminate H; reflexivity.
Qed.

(** Adding +0.0 changes -0.0 only. *)
Lemma add_zero_r (x : float) : Prim2SF x <> S754_zero true -> (x + 0 = x)%float.
Proof.
  intros H. apply Prim2SF_inj. rewrite add_spec.
  destruct (Prim2SF x) as [[|]|[|]| |[|] m e]; try reflexivity. now destruct H.
Qed.

(** A finite reciprocal is the reciprocal of a nonzero number. *)
Lemma finite_inverse (s : float) :
  Binary64.finite (1 / s) = true -> (s =? 0)%float = false.
Proof.
  unfold Binary64.finite. rewrite div_spec, FloatAxioms.eqb_spec.
  destruct (Prim2SF s) as [[|]|[|]| |[|] m e]; try reflexivity; discriminate.
Qed.

(** The loop of cell 7 on the notebook's data, in binary64, ends with the
    two numbers the notebook prints after the cell: 4.976925034352892 and
    0.06966257824825756. *)
Lemma binary64_recorded_output :
  Binary64.iterate Binary64.R_noise Binary64.measurements
                   (Binary64.x_0, Binary64.P_0) =
  Ok ([[4.976925034352892]; [0.06966257824825756]]%float,
      [[0.18733777800396947; -0.07328617232429122];
       [-0.0732861723242912; 0.0330703852613364]]%float).
Proof. vm_compute. reflexivity. Qed.

(** The matrix [[1, -1.5], [-1.5, 2.25]], the outer product of (1, -1.5)
    with itself, is a covariance matrix. *)
Lemma rank_one_spsd64 : spsd64 [[1; -1.5]; [-1.5; 2.25]]%float.
Proof.
  exists [[1; Q2Qc (-3 # 2)]; [Q2Qc (-3 # 2); Q2Qc (9 # 4)]].
  split; [vm_compute; reflexivity|]. split; [reflexivity|].
  apply (psd_minors 1 (Q2Qc (-3 # 2)) (Q2Qc (9 # 4))).
  repeat split; vm_compute; discriminate.
Qed.

(** With this covariance, the current 1.5000000000000002 and the noise
    variance 2^-53 the update is carried out on an innovation covariance
    of 2^-104, far below the noise variance: the estimate jumps to
    (2^52, -2^53), the residual of the measurement grows from 1 to 2^51,
    and the new covariance has the diagonal entry -4. *)
Lemma binary64_tiny_noise :
  let P := [[1; -1.5]; [-1.5; 2.25]]%float in
  let H := Binary64.construct_H 1.5000000000000002 in
  let nv := 0x1p-53%float in
  spsd64 P /\ (0 <? nv)%float = true /\
  Binary64.innovation P H [[nv]] = [[0x1p-104%float]] /\
  Binary64.update 1.5000000000000002 [1%float] [[nv]] ([[0]; [0]]%float, P) =
    Ok ([[0x1p52]; [-0x1p53]]%float, [[0; 0]; [2; -4]]%float) /\
  Binary64.bsub [1%float] (Binary64.matmul H [[0]; [0]]%float) = [[1%float]] /\
  Binary64.bsub [1%float] (Binary64.matmul H [[0x1p52]; [-0x1p53]]%float)
    = [[0x1p51%float]].
Proof.
  cbv zeta. split; [exact rank_one_spsd64|].
  repeat split; vm_compute; reflexivity.
Qed.

(** * The properties of the specification *)

(** C1: on the data of the notebook, with the prior mean (4, 0), the prior
    covariance diag(9, 0.2) and the noise variance 0.0225, the recursive
    solution ends without an exception with the estimate
    (488958/98245, 6844/98245), which is within 0.001 of (4.9769, 0.0697);
    the batch solution is (497/100, 37/500) = (4.97, 0.074), and the two
    agree within 0.01 in each component.  The four numbers are within 1e-12
    of the float64 outputs recorded in the notebook. *)
Theorem notebook_estimates :
  exists (s : env) (xb : matrix),
    notebook_run = (Ok tt, s) /\ x_ls I_data V_data = Ok xb /\
    map (map this) (x_k s) = [[488958 # 98245]; [6844 # 98245]]%Q /\
    map (map this) xb = [[497 # 100]; [37 # 500]]%Q /\
    close (entry (x_k s) 0 0) 4.9769 0.001 /\
    close (entry (x_k s) 1 0) 0.0697 0.001 /\
    close (entry (x_k s) 0 0) (entry xb 0 0) 0.01 /\
    close (entry (x_k s) 1 0) (entry xb 1 0) 0.01 /\
    close (entry (x_k s) 0 0) 4.976925034352892 1e-12 /\
    close (entry (x_k s) 1 0) 0.06966257824825756 1e-12 /\
    close (entry xb 0 0) 4.970000000000006 1e-12 /\
    close (entry xb 1 0) 0.07399999999999807 1e-12.
Proof.
  exists (snd notebook_run).
  exists (match x_ls I_data V_data with Ok xb => xb | Raise _ => [] end).
  repeat split; vm_compute; reflexivity.
Qed.

(** C2: one update of the notebook (lines 215-227, and the same lines
    inside an iteration of the loop) computes exactly the six steps of the
    specification, in their order: H = [I_k, 1], S = H P H^T +
    noise_variance, K = P H^T S^-1, r = V_k - H x, x <- x + K r and
    P <- (I2 - K H) P with the P from before the update.  It does so for
    every state and every measurement with S <> 0; for S = 0 the inversion
    raises LinAlgError. *)
Theorem update_follows_spec (l vs : vector) (nv Ik Vk : Qc) (k : nat)
        (a : ndarray) (x : Spec.vec2) (P : Spec.mat2)
        (xh : list vector) (Ph : list matrix) :
  holds l a -> nth_error l k = Some Ik -> nth_error vs k = Some Vk ->
  (k + 1 < length xh)%nat -> (k + 1 < length Ph)%nat ->
  let x' := fst (Spec.update Ik Vk nv (x, P)) in
  let P' := snd (Spec.update Ik Vk nv (x, P)) in
  update Ik [Vk] [[nv]] (Spec.col x, Spec.mat P) =
    (if Qeq_bool (Spec.S_of Ik nv P) 0 then Raise LinAlgError
     else Ok (Spec.col x', Spec.mat P')) /\
  body (column vs) [[nv]] k (mkenv a (Spec.col x) (Spec.mat P) xh Ph) =
    (if Qeq_bool (Spec.S_of Ik nv P) 0
     then (Raise LinAlgError, mkenv (Arr1 l) (Spec.col x) (Spec.mat P) xh Ph)
     else (Ok tt, mkenv (Arr1 l) (Spec.col x') (Spec.mat P')
                        (set_nth xh (k + 1) (Spec.flat x'))
                        (set_nth Ph (k + 1) (Spec.mat P')))).
Proof.
  intros Ha Hi Hv Hx HP x' P'. split.
  - exact (update_arrays Ik Vk nv (x, P)).
  - exact (body_arrays l vs nv Ik Vk k a (x, P) xh Ph Ha Hi Hv Hx HP).
Qed.

(** The first iteration of the notebook's loop as an instance of C2. *)
Lemma update_follows_spec_witness :
  let l := map fst measurements in
  let vs := map snd measurements in
  let Ik := Q2Qc 0.2 in
  let Vk := Q2Qc 1.23 in
  let a := Arr2 (column l) in
  let xh := zeros2 6 2 in
  let Ph := zeros3 6 2 2 in
  let x' := fst (Spec.update Ik Vk noise prior) in
  let P' := snd (Spec.update Ik Vk noise prior) in
  (holds l a /\ nth_error l 0 = Some Ik /\ nth_error vs 0 = Some Vk /\
   (0 + 1 < length xh)%nat /\ (0 + 1 < length Ph)%nat) /\
  update Ik [Vk] [[noise]] (Spec.col (fst prior), Spec.mat (snd prior)) =
    (if Qeq_bool (Spec.S_of Ik noise (snd prior)) 0 then Raise LinAlgError
     else Ok (Spec.col x', Spec.mat P')) /\
  body (column vs) [[noise]] 0
       (mkenv a (Spec.col (fst prior)) (Spec.mat (snd prior)) xh Ph) =
    (if Qeq_bool (Spec.S_of Ik noise (snd prior)) 0
     then (Raise LinAlgError,
           mkenv (Arr1 l) (Spec.col (fst prior)) (Spec.mat (snd prior)) xh Ph)
     else (Ok tt, mkenv (Arr1 l) (Spec.col x') (Spec.mat P')
                        (set_nth xh (0 + 1) (Spec.flat x'))
                        (set_nth Ph (0 + 1) (Spec.mat P')))).
Proof.
  intros l vs Ik Vk a xh Ph x' P'.
  assert (holds l a) as Ha by (left; reflexivity).
  assert (nth_error l 0 = Some Ik) as Hi by reflexivity.
  assert (nth_error vs 0 = Some Vk) as Hv by reflexivity.
  assert (0 + 1 < length xh)%nat as Hx by (vm_compute; lia).
  assert (0 + 1 < length Ph)%nat as HP by (vm_compute; lia).
  split; [repeat split; assumption|].
  exact (update_follows_spec l vs noise Ik Vk 0 a (fst prior) (snd prior) xh Ph
           Ha Hi Hv Hx HP).
Defined.

(** C10, in exact arithmetic: when the covariance is positive
    semi-definite and the noise variance is positive, the innovation
    covariance S = H P H^T + noise_variance is a positive number, so its
    inversion does not raise and the gain is computed. *)
Theorem innovation_positive (Ik nv a b c d : Qc) :
  psd [[a; b]; [c; d]] -> 0 < nv ->
  exists (S : Qc) (K : matrix),
    innovation [[a; b]; [c; d]] (construct_H Ik) [[nv]] = [[S]] /\
    0 < S /\
    inv [[S]] = Ok [[/ S]] /\
    gain [[a; b]; [c; d]] (construct_H Ik) [[nv]] = Ok K.
Proof.
  intros HP Hnv.
  change [[a; b]; [c; d]] with (Spec.mat (Spec.mkmat a b c d)) in *.
  set (P := Spec.mkmat a b c d) in *.
  exists (Spec.S_of Ik nv P), (Spec.col (Spec.K_of Ik nv P)).
  pose proof (S_of_nonzero Ik nv P HP Hnv) as Hnz.
  split; [apply innovation_arrays|].
  split; [apply S_of_pos; assumption|].
  split.
  - cbn [inv]. now rewrite Hnz.
  - rewrite gain_arrays. now rewrite Hnz.
Qed.

(** The first measurement of the notebook as an instance of C10. *)
Lemma innovation_positive_witness :
  (psd [[Q2Qc 9.0; Q2Qc 0.0]; [Q2Qc 0.0; Q2Qc 0.2]] /\ 0 < noise) /\
  exists (S : Qc) (K : matrix),
    innovation [[Q2Qc 9.0; Q2Qc 0.0]; [Q2Qc 0.0; Q2Qc 0.2]]
               (construct_H (Q2Qc 0.2)) [[noise]] = [[S]] /\
    0 < S /\
    inv [[S]] = Ok [[/ S]] /\
    gain [[Q2Qc 9.0; Q2Qc 0.0]; [Q2Qc 0.0; Q2Qc 0.2]]
         (construct_H (Q2Qc 0.2)) [[noise]] = Ok K.
Proof.
  split; [split; [exact prior_psd | exact noise_pos]|].
  exact (innovation_positive (Q2Qc 0.2) noise (Q2Qc 9.0) (Q2Qc 0.0) (Q2Qc 0.0)
           (Q2Qc 0.2) prior_psd noise_pos).
Defined.

(** C10 as it is stated fails in binary64.  For the covariance
    [[1, -1.5], [-1.5, 2.25]], the current 1.5000000000000002 and the
    positive noise variance 1.110223024625156e-16 the products round
    H P H^T to -1.110223024625156e-16, the innovation covariance is 0.0, and
    [np.linalg.inv] raises LinAlgError in line 219. *)
Lemma innovation_zero_in_binary64 :
  let P := [[1; -1.5]; [-1.5; 2.25]]%float in
  let H := Binary64.construct_H 1.5000000000000002 in
  let nv := 1.110223024625156e-16%float in
  spsd64 P /\ (0 <? nv)%float = true /\
  Binary64.matmul (Binary64.matmul H P) (Binary64.transpose H)
    = [[(-1.110223024625156e-16)%float]] /\
  Binary64.innovation P H [[nv]] = [[0%float]] /\
  Binary64.gain P H [[nv]] = Raise LinAlgError /\
  Binary64.update 1.5000000000000002 [1%float] [[nv]] ([[0]; [0]]%float, P)
    = Raise LinAlgError.
Proof.
  cbv zeta. split; [exact rank_one_spsd64|].
  repeat split; vm_compute; reflexivity.
Qed.

(** C8, in binary64: with a diagonal covariance diag(a, d) and a
    measurement at I = 0, so that H = [0, 1], as long as a, the reciprocal
    1 / S of the innovation covariance and the residual V_k - H x are finite
    floats (S is then not zero, and the update takes place), the first
    component of the gain is 0.0 and the update leaves the slope estimate as
    it is: the new slope is x1 + 0.0, which is x1 unless x1 is -0.0. *)
Theorem zero_input_keeps_slope_binary64 (Vk nv x1 x2 a d : float) :
  let P := [[a; 0]; [0; d]]%float in
  let H := Binary64.construct_H 0 in
  let x := [[x1]; [x2]] in
  let S := Binary64.entry (Binary64.innovation P H [[nv]]) 0 0 in
  let r := Binary64.entry (Binary64.bsub [Vk] (Binary64.matmul H x)) 0 0 in
  Binary64.finite a = true ->
  Binary64.finite (1 / S) = true ->
  Binary64.finite r = true ->
  exists (K1 x2' : float) (P' : Binary64.matrix),
    H = [[0; 1]]%float /\
    Binary64.gain P H [[nv]] = Ok [[0]; [K1]]%float /\
    Binary64.update 0 [Vk] [[nv]] (x, P) = Ok ([[x1 + 0]; [x2']]%float, P') /\
    (Prim2SF x1 <> S754_zero true -> (x1 + 0)%float = x1).
Proof.
  intros P H x S r Ha HS Hr.
  pose proof (finite_inverse S HS) as HS0.
  assert (Binary64.gain P H [[nv]]
          = Ok [[0]; [0 + (0 + 0 * 0 + d * 1) * (1 / S)]]%float) as HK.
  { unfold Binary64.gain. change (Binary64.innovation P H [[nv]]) with [[S]].
    cbn [Binary64.inv]. rewrite HS0. cbn [rbind].
    subst P H. unfold Binary64.construct_H.
    cbn [Binary64.matmul map Binary64.transpose zip_with Binary64.dot fold_left].
    rewrite (add_mul_zero_r a Ha).
    change (0 + 0 * 1)%float with 0%float.
    rewrite (add_mul_zero_l _ HS). reflexivity. }
  do 3 eexists. split; [reflexivity|]. split; [exact HK|].
  split; [|apply add_zero_r].
  unfold Binary64.update. subst x. cbv zeta. fold P H. rewrite HK. cbn [rbind].
  unfold Binary64.estimate.
  change (Binary64.bsub [Vk] (Binary64.matmul H [[x1]; [x2]])) with [[r]].
  cbn [Binary64.matmul map Binary64.transpose zip_with Binary64.dot fold_left
       Binary64.madd].
  rewrite (add_mul_zero_l r Hr). reflexivity.
Qed.

(** The prior of the notebook and the measurement (0, 1.23) as an instance
    of C8: the slope stays 4.0. *)
Lemma zero_input_keeps_slope_binary64_witness :
  let P := [[9.0; 0]; [0; 0.2]]%float in
  let H := Binary64.construct_H 0 in
  let x := [[4.0]; [0.0]]%float in
  let S := Binary64.entry (Binary64.innovation P H [[0.0225%float]]) 0 0 in
  let r := Binary64.entry (Binary64.bsub [1.23%float] (Binary64.matmul H x)) 0 0 in
  (Binary64.finite 9.0 = true /\ Binary64.finite (1 / S) = true /\
   Binary64.finite r = true) /\
  (exists (K1 x2' : float) (P' : Binary64.matrix),
     H = [[0; 1]]%float /\
     Binary64.gain P H [[0.0225%float]] = Ok [[0]; [K1]]%float /\
     Binary64.update 0 [1.23%float] [[0.0225%float]] (x, P)
       = Ok ([[4.0 + 0]; [x2']]%float, P') /\
     (Prim2SF 4.0 <> S754_zero true -> (4.0 + 0)%float = 4.0%float)) /\
  (4.0 + 0)%float = 4.0%float.
Proof.
  cbv zeta.
  split; [repeat split; vm_compute; reflexivity|].
  split; [|vm_compute; reflexivity].
  apply (zero_input_keeps_slope_binary64 1.23 0.0225 4.0 0.0 9.0 0.2);
    vm_compute; reflexivity.
Defined.

(** C8 as it is stated fails in binary64 when the reciprocal of S or the
    residual overflows.  With the covariance diag(9, 0) and the noise
    variance 1e-320 the reciprocal of S = 1e-320 is an infinity and the gain
    is (nan, nan); with the notebook's covariance and noise variance, the
    intercept -1e308 and the voltage 1e308 the gain is (0, 0.8988...) but
    the residual is an infinity and 0 times it is nan.  In both cases no
    exception is raised and the slope 4.0 becomes nan. *)
Lemma zero_input_slope_nan_in_binary64 :
  Binary64.gain [[9; 0]; [0; 0]]%float (Binary64.construct_H 0) [[1e-320%float]]
    = Ok [[nan]; [nan]] /\
  Binary64.update 0 [1%float] [[1e-320%float]]
                  ([[4]; [0]]%float, [[9; 0]; [0; 0]]%float)
    = Ok ([[nan]; [nan]], [[nan; nan]; [nan; nan]]) /\
  Binary64.gain [[9; 0]; [0; 0.2]]%float (Binary64.construct_H 0) [[0.0225%float]]
    = Ok [[0]; [0.8988764044943821]]%float /\
  Binary64.update 0 [1e308%float] [[0.0225%float]]
                  ([[4]; [-1e308]]%float, [[9; 0]; [0; 0.2]]%float)
    = Ok ([[nan]; [infinity]],
          [[9; 0]; [0; 0.02022471910112358]]%float).
Proof. repeat split; vm_compute; reflexivity. Qed.

(** X11, in exact arithmetic: with a diagonal covariance diag(a, d) and a
    measurement at I = 0 the update takes place whenever
    S = d + noise_variance is not zero; the gain is
    (0, d / (d + noise_variance)), the slope estimate is kept, and the
    intercept moves by d / (d + noise_variance) times the residual. *)
Theorem zero_input_keeps_slope (Vk nv x1 x2 a d : Qc) :
  d + nv <> 0 ->
  exists (k2 : Qc) (P' : matrix),
    construct_H 0 = [[0; 1]] /\
    gain [[a; 0]; [0; d]] (construct_H 0) [[nv]] = Ok [[0]; [k2]] /\
    k2 = d / (d + nv) /\
    update 0 [Vk] [[nv]] ([[x1]; [x2]], [[a; 0]; [0; d]]) =
      Ok ([[x1]; [x2 + k2 * (Vk - x2)]], P').
Proof.
  intros HS.
  set (x := Spec.mkvec x1 x2). set (P := Spec.mkmat a 0 0 d).
  assert (Spec.S_of 0 nv P = d + nv) as ES by (subst P; spec_unfold; ring).
  assert (Qeq_bool (Spec.S_of 0 nv P) 0 = false) as Hnz
      by (apply Qeq_bool_Qc_false; now rewrite ES).
  exists (d / (d + nv)), (Spec.mat (snd (Spec.update 0 Vk nv (x, P)))).
  split; [reflexivity|]. split; [|split; [reflexivity|]].
  - change [[a; 0]; [0; d]] with (Spec.mat P).
    rewrite gain_arrays, Hnz. f_equal. unfold Spec.K_of. rewrite ES.
    subst P. spec_unfold. entrywise.
    + ring.
    + field. exact HS.
  - change ([[x1]; [x2]], [[a; 0]; [0; d]]) with (Spec.arrays (x, P)).
    rewrite update_arrays. cbn [snd]. rewrite Hnz. f_equal.
    unfold Spec.arrays. f_equal.
    unfold Spec.update, Spec.K_of. rewrite ES.
    subst x P. spec_unfold. entrywise.
    + ring.
    + field. exact HS.
Qed.

(** The prior of the notebook and a measurement at I = 0 as an instance of
    X11. *)
Lemma zero_input_keeps_slope_witness :
  Q2Qc 0.2 + noise <> 0 /\
  exists (k2 : Qc) (P' : matrix),
    construct_H 0 = [[0; 1]] /\
    gain [[Q2Qc 9.0; 0]; [0; Q2Qc 0.2]] (construct_H 0) [[noise]] = Ok [[0]; [k2]] /\
    k2 = Q2Qc 0.2 / (Q2Qc 0.2 + noise) /\
    update 0 [Q2Qc 1.23] [[noise]]
           ([[Q2Qc 4.0]; [Q2Qc 0.0]], [[Q2Qc 9.0; 0]; [0; Q2Qc 0.2]]) =
      Ok ([[Q2Qc 4.0]; [Q2Qc 0.0 + k2 * (Q2Qc 1.23 - Q2Qc 0.0)]], P').
Proof.
  assert (Q2Qc 0.2 + noise <> 0) as H by (vm_compute; discriminate).
  split; [exact H|].
  exact (zero_input_keeps_slope (Q2Qc 1.23) noise (Q2Qc 4.0) (Q2Qc 0.0)
           (Q2Qc 9.0) (Q2Qc 0.2) H).
Defined.

(** C3, in exact arithmetic: an update of a symmetric positive semi-definite
    covariance with a positive noise variance does not fail, and each
    diagonal entry of the new covariance is at most the entry before.  So in
    a run from such a prior no update fails, and at every step k each
    diagonal entry of the covariance recorded after step k + 1 is at most
    the one recorded after step k. *)
Theorem diagonal_shrinks (ms : list (Qc * Qc)) (nv Ik Vk x1 x2 a b c d : Qc) :
  spsd [[a; b]; [c; d]] -> 0 < nv ->
  (exists x' P' : matrix,
     update Ik [Vk] [[nv]] ([[x1]; [x2]], [[a; b]; [c; d]]) = Ok (x', P') /\
     entry P' 0 0 <= a /\ entry P' 1 1 <= d) /\
  (exists s : env,
     run_on ms [[x1]; [x2]] [[a; b]; [c; d]] [[nv]] = (Ok tt, s) /\
     forall k : nat, (k < length ms)%nat ->
       entry (nth (S k) (P_hist s) []) 0 0 <= entry (nth k (P_hist s) []) 0 0 /\
       entry (nth (S k) (P_hist s) []) 1 1 <= entry (nth k (P_hist s) []) 1 1).
Proof.
  intros HP Hnv.
  set (st := (Spec.mkvec x1 x2, Spec.mkmat a b c d)).
  change [[x1]; [x2]] with (Spec.col (fst st)).
  change [[a; b]; [c; d]] with (Spec.mat (snd st)) in *.
  change (Spec.col (fst st), Spec.mat (snd st)) with (Spec.arrays st).
  split.
  - rewrite update_arrays, (S_of_nonzero Ik nv (snd st)) by (apply HP || exact Hnv).
    do 2 eexists. split; [reflexivity|].
    destruct (entry_mat (snd (Spec.update Ik Vk nv st))) as [-> ->].
    exact (update_diag Ik Vk nv st HP Hnv).
  - rewrite (run_on_spsd nv Hnv ms st HP). eexists. split; [reflexivity|].
    cbn [P_hist]. intros k Hk.
    destruct (states_spsd nv Hnv ms st HP) as (Hlen & _ & _).
    destruct (states_nth nv Hnv ms st st k HP Hk) as (I' & V' & _ & Hg & Hn).
    assert (S k < length (st :: Spec.states nv ms st))%nat as Hk1
        by (change (S k < S (length (Spec.states nv ms st)))%nat;
            rewrite Hlen; lia).
    assert (k < length (st :: Spec.states nv ms st))%nat as Hk0 by lia.
    rewrite (nth_map_in _ _ (S k) st) by exact Hk1.
    rewrite (nth_map_in _ _ k st) by exact Hk0.
    rewrite Hn.
    destruct (entry_mat (snd (nth k (st :: Spec.states nv ms st) st))) as [-> ->].
    destruct (entry_mat (snd (Spec.update I' V' nv
                                (nth k (st :: Spec.states nv ms st) st))))
      as [-> ->].
    apply update_diag; assumption.
Qed.

(** The run of the notebook, and its first update, as an instance of C3. *)
Lemma diagonal_shrinks_witness :
  (spsd [[Q2Qc 9.0; Q2Qc 0.0]; [Q2Qc 0.0; Q2Qc 0.2]] /\ 0 < noise) /\
  (exists x' P' : matrix,
     update (Q2Qc 0.2) [Q2Qc 1.23] [[noise]]
            ([[Q2Qc 4.0]; [Q2Qc 0.0]],
             [[Q2Qc 9.0; Q2Qc 0.0]; [Q2Qc 0.0; Q2Qc 0.2]]) = Ok (x', P') /\
     entry P' 0 0 <= Q2Qc 9.0 /\ entry P' 1 1 <= Q2Qc 0.2) /\
  (exists s : env,
     run_on measurements [[Q2Qc 4.0]; [Q2Qc 0.0]]
            [[Q2Qc 9.0; Q2Qc 0.0]; [Q2Qc 0.0; Q2Qc 0.2]] [[noise]] = (Ok tt, s) /\
     forall k : nat, (k < length measurements)%nat ->
       entry (nth (S k) (P_hist s) []) 0 0 <= entry (nth k (P_hist s) []) 0 0 /\
       entry (nth (S k) (P_hist s) []) 1 1 <= entry (nth k (P_hist s) []) 1 1).
Proof.
  split; [split; [exact prior_spsd | exact noise_pos]|].
  exact (diagonal_shrinks measurements noise (Q2Qc 0.2) (Q2Qc 1.23)
           (Q2Qc 4.0) (Q2Qc 0.0) (Q2Qc 9.0) (Q2Qc 0.0) (Q2Qc 0.0) (Q2Qc 0.2)
           prior_spsd noise_pos).
Defined.

(** C3 as it is stated fails in binary64.  The covariance
    [[1.75, b], [b, 2]] with b = -1.7500000000009095 = -(7/4 + 2^-40) is
    symmetric and positive definite; an update with the current 1 and the
    noise variance 2048 rounds 1 - K[0] I up to 1 + 2^-52, and the entry
    P[0, 0] grows from 1.75 to 1.7500000000000002. *)
Lemma diagonal_grows_in_binary64 :
  let P := [[1.75; -1.7500000000009095]; [-1.7500000000009095; 2]]%float in
  spsd64 P /\ (0 <? 2048)%float = true /\
  Binary64.update 1 [1%float] [[2048%float]] ([[0]; [0]]%float, P) =
    Ok ([[-4.4403500635807594e-16]; [0.00012205541315712961]]%float,
        [[1.7500000000000002; -1.7500000000009095];
         [-1.7500000000009095; 1.9999694861467108]]%float) /\
  (1.75 <? 1.7500000000000002)%float = true.
Proof.
  cbv zeta. split.
  - exists [[Q2Qc (7 # 4); Q2Qc (-1924145348609 # 1099511627776)];
            [Q2Qc (-1924145348609 # 1099511627776); Q2Qc 2]].
    split; [vm_compute; reflexivity|]. split; [reflexivity|].
    apply (psd_minors (Q2Qc (7 # 4)) (Q2Qc (-1924145348609 # 1099511627776))
                      (Q2Qc 2)).
    repeat split; vm_compute; discriminate.
  - repeat split; vm_compute; reflexivity.
Qed.

(** C4: an update of a symmetric positive semi-definite covariance with a
    positive noise variance does not fail and gives a symmetric positive
    semi-definite covariance.  So in a run from such a prior the covariance
    recorded after every update, and the final one, is symmetric and
    positive semi-definite. *)
Theorem covariance_stays_spsd (ms : list (Qc * Qc)) (nv Ik Vk x1 x2 a b c d : Qc) :
  spsd [[a; b]; [c; d]] -> 0 < nv ->
  (exists x' P' : matrix,
     update Ik [Vk] [[nv]] ([[x1]; [x2]], [[a; b]; [c; d]]) = Ok (x', P') /\
     symmetric P' /\ psd P') /\
  (exists s : env,
     run_on ms [[x1]; [x2]] [[a; b]; [c; d]] [[nv]] = (Ok tt, s) /\
     length (P_hist s) = S (length ms) /\
     Forall spsd (P_hist s) /\
     spsd (P_k s)).
Proof.
  intros HP Hnv.
  set (st := (Spec.mkvec x1 x2, Spec.mkmat a b c d)).
  change [[x1]; [x2]] with (Spec.col (fst st)).
  change [[a; b]; [c; d]] with (Spec.mat (snd st)) in *.
  change (Spec.col (fst st), Spec.mat (snd st)) with (Spec.arrays st).
  split.
  - rewrite update_arrays, (S_of_nonzero Ik nv (snd st)) by (apply HP || exact Hnv).
    do 2 eexists. split; [reflexivity|].
    exact (update_spsd Ik Vk nv st HP Hnv).
  - rewrite (run_on_spsd nv Hnv ms st HP). eexists. split; [reflexivity|].
    cbn [P_hist P_k].
    destruct (states_spsd nv Hnv ms st HP) as (Hlen & _ & Hall).
    split; [|split].
    + rewrite length_map. cbn [length]. now rewrite Hlen.
    + apply Forall_map. constructor; assumption.
    + apply final_spsd; assumption.
Qed.

(** The run of the notebook, and its first update, as an instance of C4. *)
Lemma covariance_stays_spsd_witness :
  (spsd [[Q2Qc 9.0; Q2Qc 0.0]; [Q2Qc 0.0; Q2Qc 0.2]] /\ 0 < noise) /\
  (exists x' P' : matrix,
     update (Q2Qc 0.2) [Q2Qc 1.23] [[noise]]
            ([[Q2Qc 4.0]; [Q2Qc 0.0]],
             [[Q2Qc 9.0; Q2Qc 0.0]; [Q2Qc 0.0; Q2Qc 0.2]]) = Ok (x', P') /\
     symmetric P' /\ psd P') /\
  (exists s : env,
     run_on measurements [[Q2Qc 4.0]; [Q2Qc 0.0]]
            [[Q2Qc 9.0; Q2Qc 0.0]; [Q2Qc 0.0; Q2Qc 0.2]] [[noise]] = (Ok tt, s) /\
     length (P_hist s) = S (length measurements) /\
     Forall spsd (P_hist s) /\
     spsd (P_k s)).
Proof.
  split; [split; [exact prior_spsd | exact noise_pos]|].
  exact (covariance_stays_spsd measurements noise (Q2Qc 0.2) (Q2Qc 1.23)
           (Q2Qc 4.0) (Q2Qc 0.0) (Q2Qc 9.0) (Q2Qc 0.0) (Q2Qc 0.0) (Q2Qc 0.2)
           prior_spsd noise_pos).
Defined.

(** C5: in runs from the same symmetric positive semi-definite prior
    covariance with the same positive noise variance, over a sequence of
    measurements and over any permutation of it, no update fails and the
    final estimate (and the final covariance) is the same.  The histories
    can differ: on the notebook's data taken in reverse order the estimate
    recorded after the first measurement is another one. *)
Theorem order_invariance (ms ms' : list (Qc * Qc)) (nv x1 x2 a b c d : Qc) :
  Permutation ms ms' -> spsd [[a; b]; [c; d]] -> 0 < nv ->
  (exists s s' : env,
     run_on ms [[x1]; [x2]] [[a; b]; [c; d]] [[nv]] = (Ok tt, s) /\
     run_on ms' [[x1]; [x2]] [[a; b]; [c; d]] [[nv]] = (Ok tt, s') /\
     x_k s = x_k s' /\ P_k s = P_k s') /\
  (exists s s' : env,
     run_on measurements (Spec.col (fst prior)) (Spec.mat (snd prior)) [[noise]]
       = (Ok tt, s) /\
     run_on (rev measurements) (Spec.col (fst prior)) (Spec.mat (snd prior)) [[noise]]
       = (Ok tt, s') /\
     map (map this) (x_hist s) <> map (map this) (x_hist s') /\
     x_k s = x_k s').
Proof.
  intros Hperm HP Hnv. split.
  - set (st := (Spec.mkvec x1 x2, Spec.mkmat a b c d)).
    change [[x1]; [x2]] with (Spec.col (fst st)).
    change [[a; b]; [c; d]] with (Spec.mat (snd st)) in *.
    rewrite !(run_on_spsd nv Hnv _ st HP). do 2 eexists.
    split; [reflexivity|]. split; [reflexivity|]. cbn [x_k P_k].
    now rewrite (final_permutation nv Hnv ms ms' Hperm st HP).
  - rewrite !(run_on_spsd noise noise_pos _ prior prior_spsd). do 2 eexists.
    split; [reflexivity|]. split; [reflexivity|]. cbn [x_k x_hist]. split.
    + vm_compute. discriminate.
    + now rewrite (final_permutation noise noise_pos measurements
                     (rev measurements) (Permutation_rev measurements)
                     prior prior_spsd).
Qed.

(** The notebook's data against the same data in reverse order as an
    instance of C5. *)
Lemma order_invariance_witness :
  (Permutation measurements (rev measurements) /\
   spsd [[Q2Qc 9.0; Q2Qc 0.0]; [Q2Qc 0.0; Q2Qc 0.2]] /\ 0 < noise) /\
  exists s s' : env,
    run_on measurements [[Q2Qc 4.0]; [Q2Qc 0.0]]
           [[Q2Qc 9.0; Q2Qc 0.0]; [Q2Qc 0.0; Q2Qc 0.2]] [[noise]] = (Ok tt, s) /\
    run_on (rev measurements) [[Q2Qc 4.0]; [Q2Qc 0.0]]
           [[Q2Qc 9.0; Q2Qc 0.0]; [Q2Qc 0.0; Q2Qc 0.2]] [[noise]] = (Ok tt, s') /\
    x_k s = x_k s' /\ P_k s = P_k s'.
Proof.
  split.
  - split; [apply Permutation_rev | split; [exact prior_spsd | exact noise_pos]].
  - exact (proj1 (order_invariance measurements (rev measurements) noise
                    (Q2Qc 4.0) (Q2Qc 0.0) (Q2Qc 9.0) (Q2Qc 0.0) (Q2Qc 0.0) (Q2Qc 0.2)
                    (Permutation_rev measurements) prior_spsd noise_pos)).
Defined.

(** C6, as the notebook has it: an iteration raises (the LinAlgError of
    np.linalg.inv) when the innovation covariance S = H P H^T +
    noise_variance is zero, and then x, P and the history are as before the
    iteration; whenever S is not zero the update is carried out, whatever
    the sign of the noise variance: the notebook does not check it. *)
Theorem singular_innovation_raises (l vs : vector) (nv Ik Vk : Qc) (k : nat)
        (a : ndarray) (x : Spec.vec2) (P : Spec.mat2)
        (xh : list vector) (Ph : list matrix) :
  holds l a -> nth_error l k = Some Ik -> nth_error vs k = Some Vk ->
  (k + 1 < length xh)%nat -> (k + 1 < length Ph)%nat ->
  exists S : Qc,
    innovation (Spec.mat P) (construct_H Ik) [[nv]] = [[S]] /\
    (S = 0 ->
     update Ik [Vk] [[nv]] (Spec.col x, Spec.mat P) = Raise LinAlgError /\
     body (column vs) [[nv]] k (mkenv a (Spec.col x) (Spec.mat P) xh Ph) =
       (Raise LinAlgError, mkenv (Arr1 l) (Spec.col x) (Spec.mat P) xh Ph)) /\
    (S <> 0 ->
     (exists xP : matrix * matrix,
        update Ik [Vk] [[nv]] (Spec.col x, Spec.mat P) = Ok xP) /\
     (exists s' : env,
        body (column vs) [[nv]] k (mkenv a (Spec.col x) (Spec.mat P) xh Ph) =
          (Ok tt, s'))).
Proof.
  intros Ha Hi Hv Hx HP. exists (Spec.S_of Ik nv P).
  pose proof (update_arrays Ik Vk nv (x, P)) as Eu.
  pose proof (body_arrays l vs nv Ik Vk k a (x, P) xh Ph Ha Hi Hv Hx HP) as Eb.
  cbn [fst snd Spec.arrays] in Eu, Eb.
  split; [apply innovation_arrays|]. split; intros HS.
  - apply Qeq_bool_Qc in HS. rewrite HS in Eu, Eb. split; assumption.
  - apply Qeq_bool_Qc_false in HS. rewrite HS in Eu, Eb. split; eexists; eassumption.
Qed.

(** The first iteration of the notebook's loop with the noise variance
    -0.56, for which S = 9 * 0.04 + 0.2 - 0.56 = 0, as an instance of the
    theorem. *)
Lemma singular_innovation_raises_witness :
  let l := map fst measurements in
  let vs := map snd measurements in
  let a := Arr2 (column l) in
  let x := fst prior in
  let P := snd prior in
  let nv := Q2Qc (-0.56) in
  (holds l a /\ nth_error l 0 = Some (Q2Qc 0.2) /\
   nth_error vs 0 = Some (Q2Qc 1.23) /\
   (0 + 1 < length (zeros2 6 2))%nat /\ (0 + 1 < length (zeros3 6 2 2))%nat) /\
  innovation (Spec.mat P) (construct_H (Q2Qc 0.2)) [[nv]] = [[0]] /\
  update (Q2Qc 0.2) [Q2Qc 1.23] [[nv]] (Spec.col x, Spec.mat P) = Raise LinAlgError /\
  body (column vs) [[nv]] 0
       (mkenv a (Spec.col x) (Spec.mat P) (zeros2 6 2) (zeros3 6 2 2)) =
    (Raise LinAlgError,
     mkenv (Arr1 l) (Spec.col x) (Spec.mat P) (zeros2 6 2) (zeros3 6 2 2)).
Proof.
  intros l vs a x P nv.
  assert (holds l a) as Ha by (left; reflexivity).
  assert (nth_error l 0 = Some (Q2Qc 0.2)) as Hi by reflexivity.
  assert (nth_error vs 0 = Some (Q2Qc 1.23)) as Hv by reflexivity.
  assert (0 + 1 < length (zeros2 6 2))%nat as Hx by (vm_compute; lia).
  assert (0 + 1 < length (zeros3 6 2 2))%nat as HP by (vm_compute; lia).
  split; [repeat split; assumption|].
  destruct (singular_innovation_raises l vs nv (Q2Qc 0.2) (Q2Qc 1.23) 0 a x P
              (zeros2 6 2) (zeros3 6 2 2) Ha Hi Hv Hx HP) as (S & ES & H0 & _).
  assert (S = 0) as E.
  { apply (f_equal (fun m => entry m 0 0)) in ES. cbn [entry nth] in ES.
    rewrite <- ES. apply Qc_is_canon. vm_compute. reflexivity. }
  subst S. split; [exact ES | exact (H0 eq_refl)].
Defined.

(** C6 as it is stated fails: with the noise variance -1 the first update
    of the notebook is not rejected but moves the estimate, and the whole
    run ends without an exception. *)
Lemma negative_noise_not_rejected :
  Q2Qc (-1) <= 0 /\
  (exists xP : matrix * matrix,
     update (Q2Qc 0.2) [Q2Qc 1.23] [[Q2Qc (-1)]] (x_0, P_0) = Ok xP /\
     map (map this) (fst xP) = [[493 # 220]; [-43 # 220]]%Q /\
     map (map this) x_0 = [[4 # 1]; [0 # 1]]%Q) /\
  (exists s : env,
     run I_data V_data x_0 P_0 [[Q2Qc (-1)]] = (Ok tt, s) /\
     map (map this) (x_k s) = [[1031 # 200]; [659 # 12000]]%Q).
Proof.
  split; [vm_compute; discriminate|]. split.
  - exists (match update (Q2Qc 0.2) [Q2Qc 1.23] [[Q2Qc (-1)]] (x_0, P_0) with
            | Ok xP => xP
            | Raise _ => ([], [])
            end).
    repeat split; vm_compute; reflexivity.
  - exists (snd (run I_data V_data x_0 P_0 [[Q2Qc (-1)]])).
    split; vm_compute; reflexivity.
Qed.

(** C7: whatever the outcome of a run over n measurements, both history
    arrays have n + 1 entries; entry 0 is the prior, and entry k is the
    state after the first k measurements, for every k the run got to.  A run
    that ends without an exception got to every k up to n. *)
Theorem history_length (ms : list (Qc * Qc)) (nv x1 x2 a b c d : Qc) :
  let x0 := [[x1]; [x2]] in
  let P0 := [[a; b]; [c; d]] in
  let r := fst (run_on ms x0 P0 [[nv]]) in
  let s := snd (run_on ms x0 P0 [[nv]]) in
  length (x_hist s) = S (length ms) /\
  length (P_hist s) = S (length ms) /\
  nth_error (x_hist s) 0 = Some [x1; x2] /\
  nth_error (P_hist s) 0 = Some P0 /\
  (forall (k : nat) (xk Pk : matrix),
     (k <= length ms)%nat ->
     iterate [[nv]] (firstn k ms) (x0, P0) = Ok (xk, Pk) ->
     nth_error (x_hist s) k = Some (ravel (Arr2 xk)) /\
     nth_error (P_hist s) k = Some Pk) /\
  (r = Ok tt ->
   forall k : nat, (k <= length ms)%nat ->
     exists xk Pk : matrix,
       iterate [[nv]] (firstn k ms) (x0, P0) = Ok (xk, Pk)).
Proof.
  intros x0 P0 r s. subst r s.
  set (st := (Spec.mkvec x1 x2, Spec.mkmat a b c d)).
  change x0 with (Spec.col (fst st)). change P0 with (Spec.mat (snd st)).
  change (Spec.col (fst st), Spec.mat (snd st)) with (Spec.arrays st).
  clear x0 P0.
  rewrite run_on_arrays. cbv zeta. cbn [fst snd x_hist P_hist].
  pose proof (length_states_le nv ms st) as Hle.
  set (sts := Spec.states nv ms st) in *.
  assert (forall (k : nat) (xk Pk : matrix),
             (k <= length ms)%nat ->
             iterate [[nv]] (firstn k ms) (Spec.arrays st) = Ok (xk, Pk) ->
             (k < length (st :: sts))%nat /\
             (xk, Pk) = Spec.arrays (nth k (st :: sts) st)) as Hreach.
  { intros k xk Pk Hk H.
    rewrite iterate_arrays, states_firstn, !length_firstn in H. fold sts in H.
    rewrite (Nat.min_l k (length ms)) in H by exact Hk.
    destruct (Nat.eqb_spec (Nat.min k (length sts)) k) as [Hk'|Hk'];
      [|discriminate H].
    assert (k <= length sts)%nat as Hks by lia.
    split; [cbn [length]; lia|].
    rewrite last_firstn_nth in H by exact Hks. now injection H as <- <-. }
  split; [|split; [|split; [|split; [|split]]]].
  - rewrite length_app, length_map, repeat_length. cbn [length]. lia.
  - rewrite length_app, length_map, repeat_length. cbn [length]. lia.
  - reflexivity.
  - reflexivity.
  - intros k xk Pk Hk H. destruct (Hreach k xk Pk Hk H) as [Hlt E].
    injection E as -> ->.
    rewrite !(nth_error_history _ _ _ _ st) by exact Hlt.
    split; reflexivity.
  - intros Hr k Hk.
    destruct (Nat.eqb_spec (length sts) (length ms)) as [Hn|Hn];
      [|discriminate Hr].
    exists (Spec.col (fst (nth k (st :: sts) st))),
           (Spec.mat (snd (nth k (st :: sts) st))).
    apply iterate_firstn. fold sts. lia.
Qed.

(** C9: the reshape of line 214 keeps the values of [I]: applied to the
    column that was loaded, and again to its own result, it gives the same
    values in the same order under a flat shape.  So in every iteration k the
    row H_k is [I_k, 1] for the k-th value loaded, and at the end of a run,
    whatever its outcome, [I] still holds the values loaded. *)
Theorem reshape_keeps_values (l : vector) :
  reshape1 (shape0 (Arr2 (column l))) (Arr2 (column l)) = Ok l /\
  reshape1 (shape0 (Arr1 l)) (Arr1 l) = Ok l /\
  (forall (k : nat) (s : env),
     holds l (I s) ->
     bind (read_I k) (fun Ik => ret (construct_H Ik)) s =
     (match nth_error l k with
      | Some Ik => Ok [[Ik; 1]]
      | None => Raise IndexError
      end,
      mkenv (Arr1 l) (x_k s) (P_k s) (x_hist s) (P_hist s))) /\
  (forall (vs : vector) (nv x1 x2 a b c d : Qc),
     length vs = length l ->
     ravel (I (snd (run_on (combine l vs) [[x1]; [x2]] [[a; b]; [c; d]] [[nv]]))) = l).
Proof.
  split; [|split; [|split]].
  - apply reshape1_holds. left. reflexivity.
  - apply reshape1_holds. right. reflexivity.
  - intros k s Hs. unfold bind. rewrite (read_I_holds l k s Hs).
    unfold getitem. destruct (nth_error l k); reflexivity.
  - intros vs nv x1 x2 a b c d Hlen.
    set (st := (Spec.mkvec x1 x2, Spec.mkmat a b c d)).
    change [[x1]; [x2]] with (Spec.col (fst st)).
    change [[a; b]; [c; d]] with (Spec.mat (snd st)).
    rewrite run_on_arrays. cbv zeta. cbn [snd I].
    assert (map fst (combine l vs) = l) as E.
    { clear -Hlen. revert vs Hlen.
      induction l as [|i l IH]; intros [|v vs] Hlen; try discriminate Hlen.
      - reflexivity.
      - cbn. f_equal. apply IH. now injection Hlen. }
    destruct (combine l vs) eqn:Ec.
    + cbn in E. subst l. reflexivity.
    + exact E.
Qed.

(** * Further properties of the notebook *)

(** The passage to [Q] by rewriting, one traversal of each statement. *)
Lemma this_plus (x y : Qc) : (this (x + y) == this x + this y)%Q.
Proof. apply Qred_correct. Qed.

Lemma this_mult (x y : Qc) : (this (x * y) == this x * this y)%Q.
Proof. apply Qred_correct. Qed.

Lemma this_opp (x : Qc) : (this (- x) == - this x)%Q.
Proof. apply Qred_correct. Qed.

Lemma this_inv (x : Qc) : (this (/ x) == / this x)%Q.
Proof. apply Qred_correct. Qed.

Lemma this_Q2Qc (q : Q) : (this (Q2Qc q) == q)%Q.
Proof. apply Qred_correct. Qed.

Ltac push_this_in H :=
  rewrite_strat
    (topdown (choice this_plus (choice this_mult (choice this_opp
                (choice this_inv this_Q2Qc))))) in H.

Ltac push_this :=
  rewrite_strat
    (topdown (choice this_plus (choice this_mult (choice this_opp
                (choice this_inv this_Q2Qc))))).

Ltac to_Q1 :=
  repeat match goal with
    | H : @eq Qc _ _ |- _ => apply Qc_eq_Qeq in H
    | H : ~ @eq Qc _ _ |- _ => apply Qc_neq_Qeq in H
    | |- @eq Qc _ _ => apply Qc_is_canon
    end;
  unfold Qcle, Qclt, Qcdiv, Qcminus in *;
  repeat match goal with
    | H : context [this (Qcplus _ _)] |- _ => push_this_in H
    | H : context [this (Qcmult _ _)] |- _ => push_this_in H
    | H : context [this (Qcopp _)] |- _ => push_this_in H
    | H : context [this (Qcinv _)] |- _ => push_this_in H
    | H : context [this (Q2Qc _)] |- _ => push_this_in H
    end;
  try push_this.

Lemma Qsquare_le_0 (x y : Q) : ((x - y) * (x - y) <= 0 -> x == y)%Q.
Proof. intros H. nra. Qed.

(** [H.T.dot(H)] and [H.T.dot(V)] are the sums over the measurements. *)
Lemma batch_normal (i1 i2 i3 i4 i5 v1 v2 v3 v4 v5 : Qc) :
  let Is := [i1; i2; i3; i4; i5] in
  let Vs := [v1; v2; v3; v4; v5] in
  (batch_H (Arr2 (column Is)))^T *m batch_H (Arr2 (column Is))
    = normal_matrix (combine Is Vs) /\
  (batch_H (Arr2 (column Is)))^T *m column Vs = normal_rhs (combine Is Vs).
Proof.
  cbv zeta. unfold normal_matrix, normal_rhs, sum, batch_H.
  split; cbn; entrywise; ring.
Qed.

(** The determinant of [H.T.dot(H)] is the sum of the squared differences
    of the currents. *)
Lemma batch_det (i1 i2 i3 i4 i5 : Qc) :
  let sii := i1 * i1 + i2 * i2 + i3 * i3 + i4 * i4 + i5 * i5 in
  let si := i1 + i2 + i3 + i4 + i5 in
  (1 + 1 + 1 + 1 + 1) * sii - si * si =
  (i1 - i2) * (i1 - i2) + (i1 - i3) * (i1 - i3) + (i1 - i4) * (i1 - i4) +
  (i1 - i5) * (i1 - i5) + (i2 - i3) * (i2 - i3) + (i2 - i4) * (i2 - i4) +
  (i2 - i5) * (i2 - i5) + (i3 - i4) * (i3 - i4) + (i3 - i5) * (i3 - i5) +
  (i4 - i5) * (i4 - i5).
Proof. cbv zeta. ring. Qed.

Lemma batch_det_zero (i1 i2 i3 i4 i5 : Qc) :
  (1 + 1 + 1 + 1 + 1) * (i1 * i1 + i2 * i2 + i3 * i3 + i4 * i4 + i5 * i5)
  - (i1 + i2 + i3 + i4 + i5) * (i1 + i2 + i3 + i4 + i5) = 0 <->
  i1 = i2 /\ i2 = i3 /\ i3 = i4 /\ i4 = i5.
Proof.
  split.
  - intros H. pose proof (batch_det i1 i2 i3 i4 i5) as E. cbv zeta in E.
    rewrite H in E. clear H. to_Q1.
    pose proof (Qsquare_nonneg (this i1 - this i2)).
    pose proof (Qsquare_nonneg (this i1 - this i3)).
    pose proof (Qsquare_nonneg (this i1 - this i4)).
    pose proof (Qsquare_nonneg (this i1 - this i5)).
    pose proof (Qsquare_nonneg (this i2 - this i3)).
    pose proof (Qsquare_nonneg (this i2 - this i4)).
    pose proof (Qsquare_nonneg (this i2 - this i5)).
    pose proof (Qsquare_nonneg (this i3 - this i4)).
    pose proof (Qsquare_nonneg (this i3 - this i5)).
    pose proof (Qsquare_nonneg (this i4 - this i5)).
    split; [|split; [|split]]; apply Qc_is_canon; apply Qsquare_le_0; lra.
  - intros (-> & -> & -> & ->). ring.
Qed.

(** The batch solution in closed form. *)
Lemma x_ls_five (i1 i2 i3 i4 i5 v1 v2 v3 v4 v5 : Qc) :
  let n := 1 + 1 + 1 + 1 + 1 in
  let sii := i1 * i1 + i2 * i2 + i3 * i3 + i4 * i4 + i5 * i5 in
  let si := i1 + i2 + i3 + i4 + i5 in
  let siv := i1 * v1 + i2 * v2 + i3 * v3 + i4 * v4 + i5 * v5 in
  let sv := v1 + v2 + v3 + v4 + v5 in
  let det := n * sii - si * si in
  x_ls (Arr2 (column [i1; i2; i3; i4; i5])) (column [v1; v2; v3; v4; v5]) =
  if Qeq_bool det 0 then Raise LinAlgError
  else Ok [[(n * siv - si * sv) / det]; [(sii * sv - si * siv) / det]].
Proof.
  intros n sii si siv sv det. unfold x_ls, batch_H.
  cbn [ravel column transpose map concat app zip_with matmul dot fold_left inv].
  match goal with
  | |- context [Qeq_bool (this ?e) _] => replace e with det
      by (subst det n sii si; ring)
  end.
  destruct (Qeq_bool det 0) eqn:E; [reflexivity|].
  apply Qeq_bool_Qc_false in E.
  cbn [rbind matmul map transpose zip_with dot fold_left]. f_equal.
  entrywise; subst det n sii si siv sv; field; exact E.
Qed.

(** X1, in exact arithmetic: on five measurements the normal matrix
    H^T H of the batch solution is singular, and its inversion raises
    LinAlgError, exactly when the five currents are all the same; otherwise
    the batch solution returns a 2x1 array.  (The rounding of float64,
    under which a normal matrix of equal currents need not come out
    singular, is not modelled for cell 4.) *)
Theorem batch_fails_iff_equal_currents (i1 i2 i3 i4 i5 v1 v2 v3 v4 v5 : Qc) :
  let Id := Arr2 (column [i1; i2; i3; i4; i5]) in
  let Vd := column [v1; v2; v3; v4; v5] in
  (x_ls Id Vd = Raise LinAlgError <->
   i1 = i2 /\ i2 = i3 /\ i3 = i4 /\ i4 = i5) /\
  (x_ls Id Vd = Raise LinAlgError \/
   exists R b : Qc, x_ls Id Vd = Ok [[R]; [b]]).
Proof.
  cbv zeta. rewrite x_ls_five. cbv zeta.
  rewrite <- batch_det_zero, <- Qeq_bool_Qc.
  destruct (Qeq_bool _ 0); split.
  - split; reflexivity.
  - left. reflexivity.
  - split; discriminate.
  - right. do 2 eexists. reflexivity.
Qed.

(** X2, in exact arithmetic: on five measurements, when the batch solution
    returns (R, b), the residuals V_k - (R I_k + b) sum to zero, so do the
    residuals weighted by the currents (the normal equations), and no other
    line has a smaller sum of squared residuals. *)
Theorem batch_least_squares (i1 i2 i3 i4 i5 v1 v2 v3 v4 v5 : Qc) (xb : matrix) :
  x_ls (Arr2 (column [i1; i2; i3; i4; i5])) (column [v1; v2; v3; v4; v5]) = Ok xb ->
  let ms := combine [i1; i2; i3; i4; i5] [v1; v2; v3; v4; v5] in
  let Rh := entry xb 0 0 in
  let bh := entry xb 1 0 in
  xb = [[Rh]; [bh]] /\
  sum (map (residual Rh bh) ms) = 0 /\
  sum (map (fun m => fst m * residual Rh bh m) ms) = 0 /\
  forall R b : Qc, sse ms Rh bh <= sse ms R b.
Proof.
  rewrite x_ls_five. cbv zeta.
  destruct (Qeq_bool _ 0) eqn:E; [discriminate|]. apply Qeq_bool_Qc_false in E.
  intros H. injection H as <-. cbn [entry nth].
  set (det := (1 + 1 + 1 + 1 + 1) * (i1 * i1 + i2 * i2 + i3 * i3 + i4 * i4 + i5 * i5)
              - (i1 + i2 + i3 + i4 + i5) * (i1 + i2 + i3 + i4 + i5)) in *.
  set (Rh := _ / det). set (bh := _ / det).
  assert (sum (map (residual Rh bh)
                 (combine [i1; i2; i3; i4; i5] [v1; v2; v3; v4; v5])) = 0) as N2
      by (subst Rh bh det; unfold sum, residual; cbn; field; exact E).
  assert (sum (map (fun m => fst m * residual Rh bh m)
                 (combine [i1; i2; i3; i4; i5] [v1; v2; v3; v4; v5])) = 0) as N1
      by (subst Rh bh det; unfold sum, residual; cbn; field; exact E).
  split; [reflexivity|]. split; [exact N2|]. split; [exact N1|].
  clearbody Rh bh. clear E det. intros R b.
  unfold sse, sum, residual in *. cbn [combine map fold_right fst snd] in *.
  to_Q1.
  generalize dependent (this Rh). generalize dependent (this bh).
  generalize (this R) (this b) (this i1) (this i2) (this i3) (this i4) (this i5)
             (this v1) (this v2) (this v3) (this v4) (this v5).
  clear. intros R b i1 i2 i3 i4 i5 v1 v2 v3 v4 v5 bh Rh N2 N1.
  pose proof (Qsquare_nonneg ((R - Rh) * i1 + (b - bh))).
  pose proof (Qsquare_nonneg ((R - Rh) * i2 + (b - bh))).
  pose proof (Qsquare_nonneg ((R - Rh) * i3 + (b - bh))).
  pose proof (Qsquare_nonneg ((R - Rh) * i4 + (b - bh))).
  pose proof (Qsquare_nonneg ((R - Rh) * i5 + (b - bh))).
  match type of N1 with
  | (?n1 == _)%Q =>
      match type of N2 with
      | (?n2 == _)%Q =>
          match goal with
          | |- (?l <= ?r)%Q =>
              assert (r == l
                           + (((R - Rh) * i1 + (b - bh)) * ((R - Rh) * i1 + (b - bh))
                              + ((R - Rh) * i2 + (b - bh)) * ((R - Rh) * i2 + (b - bh))
                              + ((R - Rh) * i3 + (b - bh)) * ((R - Rh) * i3 + (b - bh))
                              + ((R - Rh) * i4 + (b - bh)) * ((R - Rh) * i4 + (b - bh))
                              + ((R - Rh) * i5 + (b - bh)) * ((R - Rh) * i5 + (b - bh)))
                           - (2 # 1) * (R - Rh) * n1 - (2 # 1) * (b - bh) * n2)%Q
                as Hid by ring
          end
      end
  end.
  rewrite N1, N2 in Hid. rewrite Hid. lra.
Qed.

(** ** The recursive estimate solves the batch problem with the prior *)

Lemma Qc_minus_0 (x y : Qc) : x - y = 0 -> x = y.
Proof.
  intros H. replace x with (x - y + y) by ring. rewrite H. ring.
Qed.

Lemma Qc_0_minus (x y : Qc) : x = y -> x - y = 0.
Proof. intros ->. ring. Qed.

(** A goal [l = r] whose difference is a combination of four differences
    that are zero. *)
Ltac combination E1 c1 E2 c2 E3 c3 E4 c4 :=
  match type of E1 with
  | ?e1 = _ =>
      match type of E2 with
      | ?e2 = _ =>
          match type of E3 with
          | ?e3 = _ =>
              match type of E4 with
              | ?e4 = _ =>
                  apply Qc_minus_0;
                  transitivity (e1 * c1 + e2 * c2 + e3 * c3 + e4 * c4);
                  [ring | rewrite ?E1, ?E2, ?E3, ?E4; ring]
              end
          end
      end
  end.

Lemma info_form_step (nv i v sii si n siv sv : Qc) (st0 st : Spec.state) :
  info_form nv st0 sii si n siv sv st ->
  Spec.S_of i nv (snd st) <> 0 ->
  info_form nv st0 (sii + i * i) (si + i) (n + 1) (siv + i * v) (sv + v)
            (Spec.update i v nv st).
Proof.
  destruct st0 as [[y1 y2] [p q r s]], st as [[x1 x2] [a b c d]].
  unfold info_form, Spec.update, Spec.K_of. cbn [snd].
  intros [Hx HP] HS.
  pose proof (Qcmult_inv_r _ HS) as Ht.
  generalize dependent (/ Spec.S_of i nv (Spec.mkmat a b c d)). intros t Ht.
  clear HS.
  pose proof (f_equal Spec.v0 Hx) as Hx1. pose proof (f_equal Spec.v1 Hx) as Hx2.
  pose proof (f_equal Spec.m00 HP) as H00. pose proof (f_equal Spec.m01 HP) as H01.
  pose proof (f_equal Spec.m10 HP) as H10. pose proof (f_equal Spec.m11 HP) as H11.
  clear Hx HP. spec_unfold.
  apply Qc_0_minus in Hx1, Hx2, H00, H01, H10, H11, Ht.
  split; f_equal.
  - let rho := constr:(v - (i * x1 + x2)) in
    combination Hx1 (Q2Qc 1) H00 (i * t * rho) H01 (t * rho) Ht ((p * i + q) * rho).
  - let rho := constr:(v - (i * x1 + x2)) in
    combination Hx2 (Q2Qc 1) H10 (i * t * rho) H11 (t * rho) Ht ((r * i + s) * rho).
  - let g0 := constr:(i * a + c) in
    combination H00 (1 - t * i * g0) H01 (- (t * g0)) Ht (- ((p * i + q) * g0))
                Ht (Q2Qc 0).
  - let g1 := constr:(i * b + d) in
    combination H00 (- (t * i * g1)) H01 (1 - t * g1) Ht (- ((p * i + q) * g1))
                Ht (Q2Qc 0).
  - let g0 := constr:(i * a + c) in
    combination H10 (1 - t * i * g0) H11 (- (t * g0)) Ht (- ((r * i + s) * g0))
                Ht (Q2Qc 0).
  - let g1 := constr:(i * b + d) in
    combination H10 (- (t * i * g1)) H11 (1 - t * g1) Ht (- ((r * i + s) * g1))
                Ht (Q2Qc 0).
Qed.

Lemma info_form_prior (nv : Qc) (st0 : Spec.state) :
  info_form nv st0 0 0 0 0 0 st0.
Proof.
  destruct st0 as [[y1 y2] [p q r s]]. unfold info_form. spec_unfold.
  split; f_equal; ring.
Qed.

Lemma info_form_states (nv : Qc) (ms : list (Qc * Qc)) (st0 st : Spec.state)
      (sii si n siv sv : Qc) :
  info_form nv st0 sii si n siv sv st ->
  length (Spec.states nv ms st) = length ms ->
  info_form nv st0
            (sii + sum (map (fun m => fst m * fst m) ms))
            (si + sum (map fst ms))
            (n + sum (map (fun _ => 1) ms))
            (siv + sum (map (fun m => fst m * snd m) ms))
            (sv + sum (map snd ms))
            (last (Spec.states nv ms st) st).
Proof.
  revert st sii si n siv sv.
  induction ms as [|[i v] ms IH]; intros st sii si n siv sv Hst Hlen.
  - cbn. now rewrite !Qcplus_0_r.
  - cbn [Spec.states] in *.
    destruct (Qeq_bool (Spec.S_of i nv (snd st)) 0) eqn:E; [discriminate Hlen|].
    apply Qeq_bool_Qc_false in E. cbv zeta in *. cbn [length] in Hlen.
    rewrite last_cons.
    specialize (IH (Spec.update i v nv st) _ _ _ _ _
                   (info_form_step nv i v sii si n siv sv st0 st Hst E)
                   ltac:(lia)).
    unfold sum in *. cbn [map fold_right fst snd].
    rewrite !Qcplus_assoc. exact IH.
Qed.

(** A goal [l = r] that is the equation [H] up to [ring]. *)
Ltac by_equation H :=
  match type of H with
  | ?hl = _ => transitivity hl; [ring | rewrite H; ring]
  end.

(** X3, in exact arithmetic: when a run ends without an exception, the
    final estimate x and covariance P solve the batch problem weighted with
    the prior (x0, P0):
    with A = H^T H and c = H^T V over all the measurements,
    nv x + P0 A x = nv x0 + P0 c and nv P + P0 A P = nv P0. *)
Theorem recursive_solves_batch_with_prior (ms : list (Qc * Qc))
        (nv x1 x2 a b c d : Qc) (s : env) :
  run_on ms [[x1]; [x2]] [[a; b]; [c; d]] [[nv]] = (Ok tt, s) ->
  let x0 := [[x1]; [x2]] in
  let P0 := [[a; b]; [c; d]] in
  smul nv (x_k s) +m P0 *m normal_matrix ms *m x_k s
    = smul nv x0 +m P0 *m normal_rhs ms /\
  smul nv (P_k s) +m P0 *m normal_matrix ms *m P_k s = smul nv P0.
Proof.
  set (st := (Spec.mkvec x1 x2, Spec.mkmat a b c d)).
  change [[x1]; [x2]] with (Spec.col (fst st)).
  change [[a; b]; [c; d]] with (Spec.mat (snd st)).
  rewrite run_on_arrays. cbv zeta.
  destruct (Nat.eqb_spec (length (Spec.states nv ms st)) (length ms)) as [Hlen|];
    [|discriminate].
  intros H. injection H as <-. cbn [x_k P_k].
  pose proof (info_form_states nv ms st st 0 0 0 0 0 (info_form_prior nv st) Hlen)
    as Hinfo.
  rewrite !Qcplus_0_l in Hinfo.
  destruct (last (Spec.states nv ms st) st) as [[X1 X2] [A B C D]].
  unfold info_form in Hinfo. subst st. cbn [fst snd] in *.
  destruct Hinfo as [Hx HP].
  pose proof (f_equal Spec.v0 Hx) as Hx1. pose proof (f_equal Spec.v1 Hx) as Hx2.
  pose proof (f_equal Spec.m00 HP) as H00. pose proof (f_equal Spec.m01 HP) as H01.
  pose proof (f_equal Spec.m10 HP) as H10. pose proof (f_equal Spec.m11 HP) as H11.
  clear Hx HP. unfold normal_matrix, normal_rhs, smul.
  generalize dependent (sum (map (fun m : Qc * Qc => fst m * fst m) ms)).
  generalize dependent (sum (map fst ms)).
  generalize dependent (sum (map (fun _ : Qc * Qc => 1) ms)).
  generalize dependent (sum (map (fun m : Qc * Qc => fst m * snd m) ms)).
  generalize dependent (sum (map snd ms)).
  intros sv siv n si sii Hx1 Hx2 H00 H01 H10 H11.
  spec_unfold. cbn. split; entrywise.
  - by_equation Hx1.
  - by_equation Hx2.
  - by_equation H00.
  - by_equation H01.
  - by_equation H10.
  - by_equation H11.
Qed.

(** ** One update: the residual, and the covariance in every direction *)

(** X4, in exact arithmetic: an update that does not fail shrinks the
    residual of its own measurement by the factor nv / S:
    V_k - H x' = (nv / S) (V_k - H x).  With nv = 0 the new estimate
    reproduces the measurement exactly, and for a positive semi-definite P
    and nv > 0 the factor lies in (0, 1].  (In binary64 a rounded S can be
    far below nv and the residual can grow: lemma [binary64_tiny_noise].) *)
Theorem update_shrinks_residual (Ik Vk nv x1 x2 a b c d S : Qc) :
  innovation [[a; b]; [c; d]] (construct_H Ik) [[nv]] = [[S]] -> S <> 0 ->
  exists x' P' : matrix,
    update Ik [Vk] [[nv]] ([[x1]; [x2]], [[a; b]; [c; d]]) = Ok (x', P') /\
    bsub [Vk] (construct_H Ik *m x')
      = smul (nv / S) (bsub [Vk] (construct_H Ik *m [[x1]; [x2]])) /\
    (nv = 0 -> construct_H Ik *m x' = [[Vk]]) /\
    (psd [[a; b]; [c; d]] -> 0 < nv -> 0 < nv / S /\ nv / S <= 1).
Proof.
  intros HS HS0.
  change [[a; b]; [c; d]] with (Spec.mat (Spec.mkmat a b c d)) in *.
  change ([[x1]; [x2]], Spec.mat (Spec.mkmat a b c d))
    with (Spec.arrays (Spec.mkvec x1 x2, Spec.mkmat a b c d)).
  rewrite innovation_arrays in HS.
  assert (Spec.S_of Ik nv (Spec.mkmat a b c d) = S) as ES by (now injection HS).
  clear HS. rewrite update_arrays. cbn [snd]. rewrite ES.
  apply Qeq_bool_Qc_false in HS0. rewrite HS0. apply Qeq_bool_Qc_false in HS0.
  do 2 eexists. split; [reflexivity|].
  unfold Spec.arrays, Spec.update, Spec.K_of. cbn [fst snd]. rewrite ES.
  assert (S = Ik * (a * Ik + b) + (c * Ik + d) + nv) as ES'
      by (rewrite <- ES; spec_unfold; ring).
  clear ES. subst S.
  split; [|split].
  - spec_unfold. unfold smul. cbn. entrywise. field. nonzero HS0.
  - intros ->. spec_unfold. cbn. entrywise. field.
    intros E. apply HS0.
    match type of E with ?l = _ => transitivity l; [ring | exact E] end.
  - intros HP Hnv. rewrite psd_mat in HP. specialize (HP Ik 1).
    spec_unfold.
    set (S := Ik * (a * Ik + b) + (c * Ik + d) + nv) in *.
    assert (0 < S) as Hpos by (subst S; to_Q1; lra).
    assert (nv <= S) as Hle by (subst S; to_Q1; lra).
    assert (nv / S * S = nv) as Hf by (field; exact HS0).
    clearbody S. generalize dependent (nv / S). intros f Hf.
    clear HP HS0. to_Q1. split; nra.
Qed.

(** The first update of the notebook as an instance of X4. *)
Lemma update_shrinks_residual_witness :
  let S := Q2Qc 0.5825 in
  (innovation [[Q2Qc 9.0; Q2Qc 0.0]; [Q2Qc 0.0; Q2Qc 0.2]]
              (construct_H (Q2Qc 0.2)) [[noise]] = [[S]] /\ S <> 0) /\
  exists x' P' : matrix,
    update (Q2Qc 0.2) [Q2Qc 1.23] [[noise]]
           ([[Q2Qc 4.0]; [Q2Qc 0.0]],
            [[Q2Qc 9.0; Q2Qc 0.0]; [Q2Qc 0.0; Q2Qc 0.2]]) = Ok (x', P') /\
    bsub [Q2Qc 1.23] (construct_H (Q2Qc 0.2) *m x')
      = smul (noise / S)
             (bsub [Q2Qc 1.23]
                   (construct_H (Q2Qc 0.2) *m [[Q2Qc 4.0]; [Q2Qc 0.0]])) /\
    (noise = 0 -> construct_H (Q2Qc 0.2) *m x' = [[Q2Qc 1.23]]) /\
    (psd [[Q2Qc 9.0; Q2Qc 0.0]; [Q2Qc 0.0; Q2Qc 0.2]] -> 0 < noise ->
     0 < noise / S /\ noise / S <= 1).
Proof.
  intros S.
  assert (innovation [[Q2Qc 9.0; Q2Qc 0.0]; [Q2Qc 0.0; Q2Qc 0.2]]
                     (construct_H (Q2Qc 0.2)) [[noise]] = [[S]]) as H1.
  { change [[Q2Qc 9.0; Q2Qc 0.0]; [Q2Qc 0.0; Q2Qc 0.2]]
      with (Spec.mat (snd prior)).
    rewrite innovation_arrays.
    replace (Spec.S_of (Q2Qc 0.2) noise (snd prior)) with S; [reflexivity|].
    apply Qc_is_canon. vm_compute. reflexivity. }
  assert (S <> 0) as H2 by (vm_compute; discriminate).
  split; [split; assumption|].
  exact (update_shrinks_residual (Q2Qc 0.2) (Q2Qc 1.23) noise (Q2Qc 4.0) (Q2Qc 0.0)
           (Q2Qc 9.0) (Q2Qc 0.0) (Q2Qc 0.0) (Q2Qc 0.2) S H1 H2).
Defined.

(** X5, in exact arithmetic: an update of a symmetric positive
    semi-definite covariance with nv > 0 does not increase the variance
    w P w^T of any combination w = (w1, w2) of the two parameters: it takes
    off (w P H^T)^2 / S.  (In binary64 the new variance can be negative:
    lemma [binary64_tiny_noise].) *)
Theorem update_shrinks_every_direction (Ik Vk nv x1 x2 a b c d w1 w2 : Qc) :
  spsd [[a; b]; [c; d]] -> 0 < nv ->
  exists (x' P' : matrix) (S : Qc),
    update Ik [Vk] [[nv]] ([[x1]; [x2]], [[a; b]; [c; d]]) = Ok (x', P') /\
    innovation [[a; b]; [c; d]] (construct_H Ik) [[nv]] = [[S]] /\
    quad P' [w1; w2] =
      quad [[a; b]; [c; d]] [w1; w2]
      - entry ([[w1; w2]] *m [[a; b]; [c; d]] *m (construct_H Ik)^T) 0 0
        * entry ([[w1; w2]] *m [[a; b]; [c; d]] *m (construct_H Ik)^T) 0 0 / S /\
    0 <= quad P' [w1; w2] /\
    quad P' [w1; w2] <= quad [[a; b]; [c; d]] [w1; w2].
Proof.
  intros HP Hnv.
  change [[a; b]; [c; d]] with (Spec.mat (Spec.mkmat a b c d)) in *.
  change ([[x1]; [x2]], Spec.mat (Spec.mkmat a b c d))
    with (Spec.arrays (Spec.mkvec x1 x2, Spec.mkmat a b c d)).
  pose proof (update_spsd Ik Vk nv (Spec.mkvec x1 x2, Spec.mkmat a b c d) HP Hnv)
    as [_ HP'].
  destruct HP as [Hsym HP]. apply symmetric_mat in Hsym. cbn in Hsym. subst c.
  pose proof (S_of_pos Ik nv _ HP Hnv) as Hpos.
  pose proof (S_of_nonzero Ik nv _ HP Hnv) as Hnz.
  rewrite update_arrays. cbn [snd]. rewrite Hnz. apply Qeq_bool_Qc_false in Hnz.
  exists (Spec.col (fst (Spec.update Ik Vk nv
                           (Spec.mkvec x1 x2, Spec.mkmat a b b d)))),
         (Spec.mat (snd (Spec.update Ik Vk nv
                           (Spec.mkvec x1 x2, Spec.mkmat a b b d)))),
         (Spec.S_of Ik nv (Spec.mkmat a b b d)).
  split; [reflexivity|]. split; [apply innovation_arrays|].
  assert (quad (Spec.mat (snd (Spec.update Ik Vk nv
                                 (Spec.mkvec x1 x2, Spec.mkmat a b b d)))) [w1; w2]
          = quad (Spec.mat (Spec.mkmat a b b d)) [w1; w2]
            - entry ([[w1; w2]] *m Spec.mat (Spec.mkmat a b b d)
                     *m (construct_H Ik)^T) 0 0
              * entry ([[w1; w2]] *m Spec.mat (Spec.mkmat a b b d)
                       *m (construct_H Ik)^T) 0 0
              / Spec.S_of Ik nv (Spec.mkmat a b b d)) as E.
  { rewrite !quad_mat. unfold Spec.update, Spec.K_of. cbn [snd].
    revert Hnz. generalize (Spec.S_of Ik nv (Spec.mkmat a b b d)). intros S Hnz.
    spec_unfold. cbn. field. exact Hnz. }
  split; [exact E|]. split; [apply HP'; reflexivity|].
  rewrite E. clear E.
  set (g := entry _ 0 0). set (q := quad _ _).
  assert (g * g / Spec.S_of Ik nv (Spec.mkmat a b b d)
          * Spec.S_of Ik nv (Spec.mkmat a b b d) = g * g) as Hf
      by (field; exact Hnz).
  generalize dependent (g * g / Spec.S_of Ik nv (Spec.mkmat a b b d)).
  intros f Hf.
  pose proof (Qsquare_nonneg (this g)) as Hg.
  clearbody g q. clear HP HP' Hnz.
  generalize dependent (Spec.S_of Ik nv (Spec.mkmat a b b d)). intros S Hpos Hf.
  to_Q1. nra.
Qed.

(** The first update of the notebook in the direction (1, 1) as an instance
    of X5. *)
Lemma update_shrinks_every_direction_witness :
  let P := [[Q2Qc 9.0; Q2Qc 0.0]; [Q2Qc 0.0; Q2Qc 0.2]] in
  (spsd P /\ 0 < noise) /\
  exists (x' P' : matrix) (S : Qc),
    update (Q2Qc 0.2) [Q2Qc 1.23] [[noise]] ([[Q2Qc 4.0]; [Q2Qc 0.0]], P)
      = Ok (x', P') /\
    innovation P (construct_H (Q2Qc 0.2)) [[noise]] = [[S]] /\
    quad P' [1; 1] =
      quad P [1; 1]
      - entry ([[1; 1]] *m P *m (construct_H (Q2Qc 0.2))^T) 0 0
        * entry ([[1; 1]] *m P *m (construct_H (Q2Qc 0.2))^T) 0 0 / S /\
    0 <= quad P' [1; 1] /\
    quad P' [1; 1] <= quad P [1; 1].
Proof.
  intros P. split; [split; [exact prior_spsd | exact noise_pos]|].
  exact (update_shrinks_every_direction (Q2Qc 0.2) (Q2Qc 1.23) noise (Q2Qc 4.0)
           (Q2Qc 0.0) (Q2Qc 9.0) (Q2Qc 0.0) (Q2Qc 0.0) (Q2Qc 0.2) 1 1
           prior_spsd noise_pos).
Defined.

(** ** Runs: what the covariance depends on, and where a run stops *)

Lemma states_cov (nv : Qc) (ms ms' : list (Qc * Qc)) (st st' : Spec.state) :
  map fst ms = map fst ms' -> snd st = snd st' ->
  map snd (Spec.states nv ms st) = map snd (Spec.states nv ms' st').
Proof.
  revert ms' st st'.
  induction ms as [|[i v] ms IH]; intros [|[i' v'] ms'] st st' Hm HP;
    try discriminate Hm; [reflexivity|].
  cbn [map fst] in Hm. injection Hm as <- Hm.
  cbn [Spec.states]. rewrite <- HP.
  destruct (Qeq_bool (Spec.S_of i nv (snd st)) 0); [reflexivity|].
  cbv zeta. cbn [map].
  assert (snd (Spec.update i v nv st) = snd (Spec.update i v' nv st')) as HP'
      by (destruct st, st'; cbn [snd] in *; now subst).
  rewrite HP'. f_equal. apply IH; assumption.
Qed.

Lemma last_map {A B} (f : A -> B) (l : list A) (d : A) :
  last (map f l) (f d) = f (last l d).
Proof.
  revert d. induction l as [|a l IH]; intros d; [reflexivity|].
  cbn [map]. now rewrite !last_cons.
Qed.

(** X6: the covariances of a run do not depend on the measured voltages nor
    on the prior mean: two runs over the same currents from the same prior
    covariance with the same noise variance have the same outcome, the same
    covariance history and the same final covariance. *)
Theorem covariance_ignores_voltages (ms ms' : list (Qc * Qc))
        (nv x1 x2 y1 y2 a b c d : Qc) :
  map fst ms = map fst ms' ->
  let r := run_on ms [[x1]; [x2]] [[a; b]; [c; d]] [[nv]] in
  let r' := run_on ms' [[y1]; [y2]] [[a; b]; [c; d]] [[nv]] in
  fst r = fst r' /\
  P_hist (snd r) = P_hist (snd r') /\
  P_k (snd r) = P_k (snd r').
Proof.
  intros Hm r r'. subst r r'.
  set (st := (Spec.mkvec x1 x2, Spec.mkmat a b c d)).
  set (st' := (Spec.mkvec y1 y2, Spec.mkmat a b c d)).
  change [[x1]; [x2]] with (Spec.col (fst st)).
  change [[y1]; [y2]] with (Spec.col (fst st')).
  change [[a; b]; [c; d]] with (Spec.mat (snd st)) at 1 3 5.
  change [[a; b]; [c; d]] with (Spec.mat (snd st')).
  rewrite !run_on_arrays. cbv zeta. cbn [fst snd P_hist P_k].
  pose proof (states_cov nv ms ms' st st' Hm eq_refl) as Hs.
  assert (length ms = length ms') as Hl
      by (rewrite <- (length_map fst ms), Hm; apply length_map).
  assert (length (Spec.states nv ms st) = length (Spec.states nv ms' st')) as Hls
      by (rewrite <- (length_map snd (Spec.states nv ms st)), Hs; apply length_map).
  rewrite Hl, Hls. split; [reflexivity|]. split.
  - f_equal.
    change (map (fun s => Spec.mat (snd s)) (st :: Spec.states nv ms st))
      with (Spec.mat (snd st)
            :: map (fun s => Spec.mat (snd s)) (Spec.states nv ms st)).
    change (map (fun s => Spec.mat (snd s)) (st' :: Spec.states nv ms' st'))
      with (Spec.mat (snd st')
            :: map (fun s => Spec.mat (snd s)) (Spec.states nv ms' st')).
    f_equal.
    rewrite <- (map_map snd Spec.mat (Spec.states nv ms st)).
    rewrite <- (map_map snd Spec.mat (Spec.states nv ms' st')).
    now rewrite Hs.
  - f_equal.
    rewrite <- (last_map snd (Spec.states nv ms st) st).
    rewrite <- (last_map snd (Spec.states nv ms' st') st').
    now rewrite Hs.
Qed.

(** The notebook's measurements against the same currents with all
    voltages zero, from the prior means (4, 0) and (0, 0), as an instance of
    X6. *)
Lemma covariance_ignores_voltages_witness :
  let ms' := map (fun m : Qc * Qc => (fst m, 0)) measurements in
  let P := [[Q2Qc 9.0; Q2Qc 0.0]; [Q2Qc 0.0; Q2Qc 0.2]] in
  let r := run_on measurements [[Q2Qc 4.0]; [Q2Qc 0.0]] P [[noise]] in
  let r' := run_on ms' [[0]; [0]] P [[noise]] in
  map fst measurements = map fst ms' /\
  fst r = fst r' /\
  P_hist (snd r) = P_hist (snd r') /\
  P_k (snd r) = P_k (snd r').
Proof.
  intros ms' P r r'.
  assert (map fst measurements = map fst ms') as H by reflexivity.
  split; [exact H|].
  exact (covariance_ignores_voltages measurements ms' noise (Q2Qc 4.0) (Q2Qc 0.0)
           0 0 (Q2Qc 9.0) (Q2Qc 0.0) (Q2Qc 0.0) (Q2Qc 0.2) H).
Defined.

(** Where the states of a run stop short, the next innovation covariance is
    zero. *)
Lemma states_stop (nv : Qc) (ms : list (Qc * Qc)) (st : Spec.state) :
  (length (Spec.states nv ms st) < length ms)%nat ->
  exists Ik Vk : Qc,
    nth_error ms (length (Spec.states nv ms st)) = Some (Ik, Vk) /\
    Spec.S_of Ik nv (snd (last (Spec.states nv ms st) st)) = 0.
Proof.
  revert st. induction ms as [|[i v] ms IH]; intros st Hlt;
    [cbn in Hlt; lia|].
  cbn [Spec.states] in *.
  destruct (Qeq_bool (Spec.S_of i nv (snd st)) 0) eqn:E.
  - exists i, v. split; [reflexivity|]. now apply Qeq_bool_Qc.
  - cbv zeta in *. cbn [length] in *. rewrite last_cons.
    destruct (IH (Spec.update i v nv st) ltac:(lia)) as (Ik & Vk & Hn & HS).
    exists Ik, Vk. split; assumption.
Qed.

Lemma nth_length_last {A} (l : list A) (d : A) :
  nth (length l) (d :: l) d = last l d.
Proof.
  rewrite <- (last_firstn_nth (length l) l d) by lia. now rewrite firstn_all.
Qed.

(** X7: a run over n measurements stops at the first measurement whose
    innovation covariance is zero, with LinAlgError, or not at all.  With j
    the number of updates done, x_k and P_k are entry j of the two history
    arrays and the entries after j are still the zeros they were allocated
    with. *)
Theorem run_stops_at_first_singular (ms : list (Qc * Qc)) (nv x1 x2 a b c d : Qc) :
  let r := fst (run_on ms [[x1]; [x2]] [[a; b]; [c; d]] [[nv]]) in
  let s := snd (run_on ms [[x1]; [x2]] [[a; b]; [c; d]] [[nv]]) in
  exists j : nat,
    (j <= length ms)%nat /\
    nth_error (x_hist s) j = Some (ravel (Arr2 (x_k s))) /\
    nth_error (P_hist s) j = Some (P_k s) /\
    (forall k : nat, (j < k <= length ms)%nat ->
       nth_error (x_hist s) k = Some [0; 0] /\
       nth_error (P_hist s) k = Some [[0; 0]; [0; 0]]) /\
    ((j = length ms /\ r = Ok tt) \/
     (exists Ik Vk : Qc,
        nth_error ms j = Some (Ik, Vk) /\
        r = Raise LinAlgError /\
        innovation (P_k s) (construct_H Ik) [[nv]] = [[0]])).
Proof.
  intros r s. subst r s.
  set (st := (Spec.mkvec x1 x2, Spec.mkmat a b c d)).
  change [[x1]; [x2]] with (Spec.col (fst st)).
  change [[a; b]; [c; d]] with (Spec.mat (snd st)).
  rewrite run_on_arrays. cbv zeta. cbn [fst snd x_hist P_hist x_k P_k].
  pose proof (length_states_le nv ms st) as Hle.
  pose proof (states_stop nv ms st) as Hstop.
  set (sts := Spec.states nv ms st) in *.
  exists (length sts).
  assert (length sts < length (st :: sts))%nat as Hj by (cbn [length]; lia).
  split; [exact Hle|]. split; [|split; [|split]].
  - rewrite (nth_error_history _ _ _ _ st) by exact Hj.
    now rewrite nth_length_last.
  - rewrite (nth_error_history _ _ _ _ st) by exact Hj.
    now rewrite nth_length_last.
  - intros k Hk.
    rewrite !nth_error_app2 by (rewrite length_map; cbn [length]; lia).
    rewrite !length_map. cbn [length].
    rewrite !nth_error_repeat by lia. split; reflexivity.
  - destruct (Nat.eqb_spec (length sts) (length ms)) as [Hn|Hn].
    + left. split; [exact Hn | reflexivity].
    + right. destruct (Hstop ltac:(lia)) as (Ik & Vk & Hnth & HS).
      exists Ik, Vk. split; [exact Hnth|]. split; [reflexivity|].
      rewrite innovation_arrays. now rewrite HS.
Qed.

(** X8: when [I] is a 2-D array that is not a single column (its number of
    elements differs from its number of rows, as for the row of currents
    without the transposition), the reshape of the first iteration raises
    ValueError: nothing is updated, [I] is as it was, and the history holds
    the prior followed by zeros. *)
Theorem misshaped_I_raises (m V R : matrix) (x1 x2 a b c d : Qc) :
  m <> [] -> length (concat m) <> length m ->
  run (Arr2 m) V [[x1]; [x2]] [[a; b]; [c; d]] R =
  (Raise ValueError,
   mkenv (Arr2 m) [[x1]; [x2]] [[a; b]; [c; d]]
         ([x1; x2] :: repeat [0; 0] (length m))
         ([[a; b]; [c; d]] :: repeat [[0; 0]; [0; 0]] (length m))).
Proof.
  intros Hm Hlen. apply Nat.eqb_neq in Hlen.
  destruct m as [|row m]; [congruence|].
  unfold run, recursive_solution, initial_env.
  cbv [bind get lift set_x_k set_P_k set_x_hist set_P_hist I x_k P_k x_hist P_hist].
  change (reshape1 2 (Arr2 [[x1]; [x2]])) with (Ok [x1; x2]).
  change (reshape2 2 2 (Arr2 [[a; b]; [c; d]])) with (Ok [[a; b]; [c; d]]).
  unfold shape0. rewrite Nat.add_1_r.
  change (zeros2 (S (length (row :: m))) 2)
    with (zeros1 2 :: repeat (zeros1 2) (length (row :: m))).
  change (zeros3 (S (length (row :: m))) 2 2)
    with (zeros2 2 2 :: repeat (zeros2 2 2) (length (row :: m))).
  unfold setitem. cbn [length Nat.ltb Nat.leb set_nth seq for_range].
  unfold bind at 1, body at 1. unfold bind at 1, read_I at 1.
  cbv [bind get lift I]. unfold reshape1, shape0, ravel.
  cbn [length] in Hlen. cbn [length]. rewrite Hlen. reflexivity.
Qed.

(** The currents of the notebook loaded as a row, without [.T], as an
    instance of X8. *)
Lemma misshaped_I_raises_witness :
  let m := [lit [0.2; 0.3; 0.4; 0.5; 0.6]] in
  (m <> [] /\ length (concat m) <> length m) /\
  run (Arr2 m) V_data x_0 P_0 R_noise =
  (Raise ValueError,
   mkenv (Arr2 m) x_0 P_0
         ([Q2Qc 4.0; Q2Qc 0.0] :: repeat [0; 0] (length m))
         (P_0 :: repeat [[0; 0]; [0; 0]] (length m))).
Proof.
  intros m.
  assert (m <> []) as H1 by discriminate.
  assert (length (concat m) <> length m) as H2 by (vm_compute; lia).
  split; [split; assumption|].
  exact (misshaped_I_raises m V_data R_noise (Q2Qc 4.0) (Q2Qc 0.0) (Q2Qc 9.0)
           (Q2Qc 0.0) (Q2Qc 0.0) (Q2Qc 0.2) H1 H2).
Defined.

(** ** A run with fewer voltages than currents *)

(** An iteration whose voltage is missing: the gain is computed, then
    [V[k]] raises. *)
Lemma body_missing (l vs : vector) (nv Ik : Qc) (k : nat) (a : ndarray)
      (st : Spec.state) (xh : list vector) (Ph : list matrix) :
  holds l a -> nth_error l k = Some Ik -> nth_error vs k = None ->
  body (column vs) [[nv]] k (mkenv a (Spec.col (fst st)) (Spec.mat (snd st)) xh Ph) =
  (Raise (if Qeq_bool (Spec.S_of Ik nv (snd st)) 0 then LinAlgError else IndexError),
   mkenv (Arr1 l) (Spec.col (fst st)) (Spec.mat (snd st)) xh Ph).
Proof.
  intros Ha Hi Hv. unfold body. unfold bind at 1.
  rewrite (read_I_holds l k (mkenv a (Spec.col (fst st)) (Spec.mat (snd st)) xh Ph) Ha).
  unfold getitem at 1. rewrite Hi.
  cbn [I x_k P_k x_hist P_hist].
  unfold bind at 1. unfold get at 1. cbn [I x_k P_k x_hist P_hist].
  unfold bind at 1. unfold lift at 1. rewrite gain_arrays.
  destruct (Qeq_bool (Spec.S_of Ik nv (snd st)) 0) eqn:E; [reflexivity|].
  unfold bind at 1. unfold get at 1. cbn [I x_k P_k x_hist P_hist].
  unfold bind at 1. unfold lift at 1, getitem.
  rewrite nth_error_column, Hv. reflexivity.
Qed.

Lemma for_range_app (ks ks' : list nat) (b : nat -> M unit) (s : env) :
  for_range (ks ++ ks') b s = bind (for_range ks b) (fun _ => for_range ks' b) s.
Proof.
  revert s. induction ks as [|k ks IH]; intros s; [reflexivity|].
  cbn [app for_range]. unfold bind.
  destruct (b k s) as [[[]|e] s']; [|reflexivity].
  rewrite IH. reflexivity.
Qed.

(** The loop over the measurements that have a voltage, when [I] holds
    further currents [extra]. *)
Lemma for_range_prefix (nv : Qc) (ms pre : list (Qc * Qc)) (extra : vector)
      (a : ndarray) (st : Spec.state) (xh : list vector) (Ph : list matrix) :
  holds (map fst (pre ++ ms) ++ extra) a ->
  (length pre + length ms + 1 <= length xh)%nat ->
  (length pre + length ms + 1 <= length Ph)%nat ->
  for_range (seq (length pre) (length ms))
            (body (column (map snd (pre ++ ms))) [[nv]])
            (mkenv a (Spec.col (fst st)) (Spec.mat (snd st)) xh Ph) =
  (if Nat.eqb (length (Spec.states nv ms st)) (length ms)
   then Ok tt else Raise LinAlgError,
   mkenv (match ms with
          | [] => a
          | _ :: _ => Arr1 (map fst (pre ++ ms) ++ extra)
          end)
         (Spec.col (fst (last (Spec.states nv ms st) st)))
         (Spec.mat (snd (last (Spec.states nv ms st) st)))
         (fill xh (S (length pre))
               (map (fun s => Spec.flat (fst s)) (Spec.states nv ms st)))
         (fill Ph (S (length pre))
               (map (fun s => Spec.mat (snd s)) (Spec.states nv ms st)))).
Proof.
  revert pre a st xh Ph.
  induction ms as [|[Ik Vk] ms IH]; intros pre a st xh Ph Ha Hx HP.
  - reflexivity.
  - cbn [length seq for_range]. unfold bind at 1.
    rewrite (body_arrays (map fst (pre ++ (Ik, Vk) :: ms) ++ extra)
               (map snd (pre ++ (Ik, Vk) :: ms)) nv Ik Vk (length pre) a st xh Ph Ha).
    2: { rewrite nth_error_app1
           by (rewrite length_map, length_app; cbn [length]; lia).
         rewrite nth_error_map, nth_error_pre. reflexivity. }
    2: { rewrite nth_error_map, nth_error_pre. reflexivity. }
    2, 3: cbn [length] in *; lia.
    cbn [Spec.states].
    destruct (Qeq_bool (Spec.S_of Ik nv (snd st)) 0); [reflexivity|].
    cbv zeta. rewrite Nat.add_1_r.
    set (st' := Spec.update Ik Vk nv st).
    specialize (IH (pre ++ [(Ik, Vk)])
                   (Arr1 (map fst (pre ++ (Ik, Vk) :: ms) ++ extra)) st'
                   (set_nth xh (S (length pre)) (Spec.flat (fst st')))
                   (set_nth Ph (S (length pre)) (Spec.mat (snd st')))).
    rewrite <- app_assoc in IH. cbn [app] in IH.
    rewrite length_app in IH. cbn [length] in IH.
    replace (length pre + 1)%nat with (S (length pre)) in IH by lia. rewrite IH.
    + cbn [length Nat.eqb map fill]. rewrite last_cons.
      destruct ms; reflexivity.
    + right. reflexivity.
    + rewrite length_set_nth. cbn [length] in *. lia.
    + rewrite length_set_nth. cbn [length] in *. lia.
Qed.

(** X9: when [I] has more rows than [V] and the run over the measurements
    that have a voltage completes, the run over all of [I] does the same
    updates and stops in the iteration of the first current without a
    voltage.  Line 219 is run before line 223 reads [V[k]]: the run stops
    with LinAlgError when the innovation covariance computed for that
    current is zero, and with IndexError otherwise.  In both cases the
    estimate and the covariance are those of the run over the complete
    measurements, [I] has become 1-D, and the history is that run's history
    followed by a row of zeros for every current left over. *)
Theorem short_V_raises (ms : list (Qc * Qc)) (i0 : Qc) (extra : vector)
        (nv x1 x2 a b c d : Qc) (s : env) :
  run_on ms [[x1]; [x2]] [[a; b]; [c; d]] [[nv]] = (Ok tt, s) ->
  let Sk := entry (innovation (P_k s) (construct_H i0) [[nv]]) 0 0 in
  run (Arr2 (column (map fst ms ++ i0 :: extra))) (column (map snd ms))
      [[x1]; [x2]] [[a; b]; [c; d]] [[nv]] =
  (Raise (if Qeq_bool Sk 0 then LinAlgError else IndexError),
   mkenv (Arr1 (map fst ms ++ i0 :: extra)) (x_k s) (P_k s)
         (x_hist s ++ repeat [0; 0] (S (length extra)))
         (P_hist s ++ repeat [[0; 0]; [0; 0]] (S (length extra)))).
Proof.
  set (st := (Spec.mkvec x1 x2, Spec.mkmat a b c d)).
  change [[x1]; [x2]] with (Spec.col (fst st)).
  change [[a; b]; [c; d]] with (Spec.mat (snd st)).
  rewrite run_on_arrays. cbv zeta.
  destruct (Nat.eqb_spec (length (Spec.states nv ms st)) (length ms)) as [Hlen|];
    [|discriminate].
  intros H. injection H as <-. cbn [x_k P_k x_hist P_hist].
  rewrite innovation_arrays. cbn [entry nth].
  rewrite Hlen, Nat.sub_diag. cbn [repeat]. rewrite !app_nil_r.
  set (l := map fst ms ++ i0 :: extra).
  unfold run, recursive_solution, initial_env.
  cbv [bind get lift set_x_k set_P_k set_x_hist set_P_hist I x_k P_k x_hist P_hist].
  rewrite reshape1_col, reshape2_mat.
  unfold shape0. rewrite length_column, Nat.add_1_r.
  change (zeros2 (S (length l)) 2) with (zeros1 2 :: repeat (zeros1 2) (length l)).
  change (zeros3 (S (length l)) 2 2)
    with (zeros2 2 2 :: repeat (zeros2 2 2) (length l)).
  unfold setitem. cbn [length Nat.ltb Nat.leb set_nth].
  assert (length l = length ms + S (length extra))%nat as Hl
      by (subst l; rewrite length_app, length_map; reflexivity).
  rewrite Hl, seq_app, for_range_app. unfold bind at 1.
  pose proof (for_range_prefix nv ms [] (i0 :: extra) (Arr2 (column l)) st
                (Spec.flat (fst st) :: repeat (zeros1 2) (length ms + S (length extra)))
                (Spec.mat (snd st) :: repeat (zeros2 2 2) (length ms + S (length extra))))
    as E.
  cbn [app length] in E. fold l in E. rewrite !repeat_length in E.
  rewrite E by (try (left; reflexivity); lia). clear E.
  rewrite Hlen, Nat.eqb_refl.
  rewrite (fill_app _ [Spec.flat (fst st)]
             (repeat (zeros1 2) (length ms + S (length extra))))
    by (rewrite length_map, repeat_length, Hlen; lia).
  rewrite (fill_app _ [Spec.mat (snd st)]
             (repeat (zeros2 2 2) (length ms + S (length extra))))
    by (rewrite length_map, repeat_length, Hlen; lia).
  rewrite !length_map, !skipn_repeat, Hlen.
  replace (length ms + S (length extra) - length ms)%nat
    with (S (length extra)) by lia.
  cbn [Nat.add seq for_range]. unfold bind at 1.
  rewrite (body_missing l (map snd ms) nv i0 (length ms)).
  - reflexivity.
  - destruct ms; [left | right]; reflexivity.
  - subst l. rewrite nth_error_app2 by (rewrite length_map; lia).
    rewrite length_map, Nat.sub_diag. reflexivity.
  - apply nth_error_None. rewrite length_map. lia.
Qed.

(** The notebook's first three measurements with all five currents as an
    instance of X9: the innovation covariance of the fourth current is not
    zero, and the run stops with IndexError. *)
Lemma short_V_raises_witness :
  let ms := firstn 3 measurements in
  let extra := lit [0.6] in
  let x0 := [[Q2Qc 4.0]; [Q2Qc 0.0]] in
  let P := [[Q2Qc 9.0; Q2Qc 0.0]; [Q2Qc 0.0; Q2Qc 0.2]] in
  let s := snd (run_on ms x0 P [[noise]]) in
  let Sk := entry (innovation (P_k s) (construct_H (Q2Qc 0.5)) [[noise]]) 0 0 in
  run_on ms x0 P [[noise]] = (Ok tt, s) /\
  run (Arr2 (column (map fst ms ++ Q2Qc 0.5 :: extra))) (column (map snd ms))
      x0 P [[noise]] =
  (Raise (if Qeq_bool Sk 0 then LinAlgError else IndexError),
   mkenv (Arr1 (map fst ms ++ Q2Qc 0.5 :: extra)) (x_k s) (P_k s)
         (x_hist s ++ repeat [0; 0] (S (length extra)))
         (P_hist s ++ repeat [[0; 0]; [0; 0]] (S (length extra)))) /\
  Qeq_bool Sk 0 = false.
Proof.
  intros ms extra x0 P s Sk.
  assert (run_on ms x0 P [[noise]] = (Ok tt, s)) as H.
  { subst s x0 P.
    change [[Q2Qc 4.0]; [Q2Qc 0.0]] with (Spec.col (fst prior)).
    change [[Q2Qc 9.0; Q2Qc 0.0]; [Q2Qc 0.0; Q2Qc 0.2]] with (Spec.mat (snd prior)).
    rewrite (run_on_spsd noise noise_pos ms prior prior_spsd). reflexivity. }
  split; [exact H|]. split; [|vm_compute; reflexivity].
  exact (short_V_raises ms (Q2Qc 0.5) extra noise (Q2Qc 4.0) (Q2Qc 0.0)
           (Q2Qc 9.0) (Q2Qc 0.0) (Q2Qc 0.0) (Q2Qc 0.2) s H).
Defined.

(** ** Cell 9: the lines that are plotted *)

Lemma map_result_ok {A B} (f : A -> result B) (g : A -> B) (l : list A) :
  (forall a, In a l -> f a = Ok (g a)) -> map_result f l = Ok (map g l).
Proof.
  induction l as [|a l IH]; intros H; [reflexivity|].
  cbn [map_result map]. rewrite (H a) by (left; reflexivity).
  cbn [rbind]. rewrite IH by (intros a' Ha'; apply H; right; exact Ha').
  reflexivity.
Qed.

Lemma V_line_of_row (xh : list vector) (I_line : matrix) (k : nat) :
  (k < length xh)%nat -> Forall (fun row => length row = 2%nat) xh ->
  V_line_of xh I_line k =
  Ok (map (map (fun i => entry xh k 0 * i + entry xh k 1)) I_line).
Proof.
  intros Hk Hrows. unfold V_line_of, getitem, entry.
  destruct (nth_error xh k) as [row|] eqn:E;
    [|apply nth_error_None in E; lia].
  rewrite (nth_error_nth _ _ [] E).
  rewrite Forall_forall in Hrows. specialize (Hrows row (nth_error_In _ _ E)).
  destruct row as [|r0 [|r1 [|r2 row]]]; try discriminate Hrows.
  reflexivity.
Qed.

Lemma nth_error_set_nth_other {A} (l : list A) (n k : nat) (a : A) :
  k <> n -> nth_error (set_nth l n a) k = nth_error l k.
Proof.
  revert n k. induction l as [|h t IH]; intros [|n] [|k] Hk; cbn; try reflexivity.
  - congruence.
  - apply IH. congruence.
Qed.

(** X10: from a history of n + 1 rows the plotting loop draws n lines, line
    k being V = x_hist[k, 0] I + x_hist[k, 1] for k = 0, ..., n - 1: the
    first is the prior, and the last row of the history, the final estimate,
    is not drawn, whatever it holds. *)
Theorem final_estimate_not_plotted (xh : list vector) (n : nat) (v : vector)
        (I_line : matrix) :
  length xh = S n -> Forall (fun row => length row = 2%nat) xh ->
  exists ls : list matrix,
    plotted_lines xh n I_line = Ok ls /\
    length ls = n /\
    (forall k : nat, (k < n)%nat ->
       nth_error ls k
       = Some (map (map (fun i => entry xh k 0 * i + entry xh k 1)) I_line)) /\
    plotted_lines (set_nth xh n v) n I_line = Ok ls.
Proof.
  intros Hlen Hrows.
  set (g := fun k => map (map (fun i => entry xh k 0 * i + entry xh k 1)) I_line).
  exists (map g (seq 0 n)).
  assert (forall k, In k (seq 0 n) -> V_line_of xh I_line k = Ok (g k)) as Hg.
  { intros k Hk. apply in_seq in Hk. apply V_line_of_row; [lia | exact Hrows]. }
  split; [|split; [|split]].
  - apply map_result_ok. exact Hg.
  - now rewrite length_map, length_seq.
  - intros k Hk. rewrite nth_error_map, nth_error_seq.
    apply Nat.ltb_lt in Hk. rewrite Hk. reflexivity.
  - apply map_result_ok. intros k Hk.
    transitivity (V_line_of xh I_line k); [|exact (Hg k Hk)].
    apply in_seq in Hk. unfold V_line_of.
    unfold getitem at 1 4. rewrite nth_error_set_nth_other by lia. reflexivity.
Qed.

(** ** Instances on the data of the notebook *)

Lemma notebook_run_ok :
  run_on measurements [[Q2Qc 4.0]; [Q2Qc 0.0]]
         [[Q2Qc 9.0; Q2Qc 0.0]; [Q2Qc 0.0; Q2Qc 0.2]] [[noise]]
  = (Ok tt, snd notebook_run).
Proof.
  rewrite notebook_run_on.
  change [[Q2Qc 4.0]; [Q2Qc 0.0]] with (Spec.col (fst prior)).
  change [[Q2Qc 9.0; Q2Qc 0.0]; [Q2Qc 0.0; Q2Qc 0.2]] with (Spec.mat (snd prior)).
  rewrite (run_on_spsd noise noise_pos measurements prior prior_spsd).
  reflexivity.
Qed.

Lemma x_ls_notebook :
  x_ls (Arr2 (column (lit [0.2; 0.3; 0.4; 0.5; 0.6])))
       (column (lit [1.23; 1.38; 2.06; 2.47; 3.17]))
  = Ok [[Q2Qc 4.97]; [Q2Qc 0.074]].
Proof.
  cbn [lit map]. rewrite x_ls_five. cbv zeta.
  match goal with
  | |- context [Qeq_bool ?q ?z] =>
      replace (Qeq_bool q z) with false by (vm_compute; reflexivity)
  end.
  f_equal. entrywise; apply Qc_is_canon; vm_compute; reflexivity.
Qed.

(** The batch solution of the notebook as an instance of X2. *)
Lemma batch_least_squares_witness :
  let Is := lit [0.2; 0.3; 0.4; 0.5; 0.6] in
  let Vs := lit [1.23; 1.38; 2.06; 2.47; 3.17] in
  let xb := [[Q2Qc 4.97]; [Q2Qc 0.074]] in
  let ms := combine Is Vs in
  let Rh := entry xb 0 0 in
  let bh := entry xb 1 0 in
  x_ls (Arr2 (column Is)) (column Vs) = Ok xb /\
  xb = [[Rh]; [bh]] /\
  sum (map (residual Rh bh) ms) = 0 /\
  sum (map (fun m => fst m * residual Rh bh m) ms) = 0 /\
  forall R b : Qc, sse ms Rh bh <= sse ms R b.
Proof.
  intros Is Vs xb ms Rh bh. split; [exact x_ls_notebook|].
  exact (batch_least_squares (Q2Qc 0.2) (Q2Qc 0.3) (Q2Qc 0.4) (Q2Qc 0.5) (Q2Qc 0.6)
           (Q2Qc 1.23) (Q2Qc 1.38) (Q2Qc 2.06) (Q2Qc 2.47) (Q2Qc 3.17) xb
           x_ls_notebook).
Defined.

(** The run of the notebook as an instance of X3. *)
Lemma recursive_solves_batch_with_prior_witness :
  let x0 := [[Q2Qc 4.0]; [Q2Qc 0.0]] in
  let P0 := [[Q2Qc 9.0; Q2Qc 0.0]; [Q2Qc 0.0; Q2Qc 0.2]] in
  let s := snd notebook_run in
  run_on measurements x0 P0 [[noise]] = (Ok tt, s) /\
  smul noise (x_k s) +m P0 *m normal_matrix measurements *m x_k s
    = smul noise x0 +m P0 *m normal_rhs measurements /\
  smul noise (P_k s) +m P0 *m normal_matrix measurements *m P_k s = smul noise P0.
Proof.
  intros x0 P0 s. split; [exact notebook_run_ok|].
  exact (recursive_solves_batch_with_prior measurements noise (Q2Qc 4.0) (Q2Qc 0.0)
           (Q2Qc 9.0) (Q2Qc 0.0) (Q2Qc 0.0) (Q2Qc 0.2) s notebook_run_ok).
Defined.

Lemma notebook_history_rows :
  length (x_hist (snd notebook_run)) = 6%nat /\
  Forall (fun row => length row = 2%nat) (x_hist (snd notebook_run)).
Proof.
  rewrite notebook_run_on.
  rewrite (run_on_spsd noise noise_pos measurements prior prior_spsd).
  cbn [snd x_hist]. split.
  - rewrite length_map. cbn [length].
    now rewrite (proj1 (states_spsd noise noise_pos measurements prior prior_spsd)).
  - apply Forall_map. apply Forall_forall. intros st _. reflexivity.
Qed.

(** The history of the notebook's run and its [I_line] as an instance of
    X10. *)
Lemma final_estimate_not_plotted_witness :
  let xh := x_hist (snd notebook_run) in
  (length xh = 6%nat /\ Forall (fun row => length row = 2%nat) xh) /\
  exists ls : list matrix,
    plotted_lines xh 5 I_line = Ok ls /\
    length ls = 5%nat /\
    (forall k : nat, (k < 5)%nat ->
       nth_error ls k
       = Some (map (map (fun i => entry xh k 0 * i + entry xh k 1)) I_line)) /\
    plotted_lines (set_nth xh 5 [0; 0]) 5 I_line = Ok ls.
Proof.
  intros xh. split; [exact notebook_history_rows|].
  exact (final_estimate_not_plotted xh 5 [0; 0] I_line
           (proj1 notebook_history_rows) (proj2 notebook_history_rows)).
Defined.
